(** * Gamma-robust First-Fit consolidation (Code99per.py)

    A shallow embedding of the heuristic consolidation engine of
    [src/Code99per.py]: the VM / PM records, [robust_cpu_usage],
    [can_place_vm_on_pm], the [GammaFFSolver] class with its
    snapshot / commit / rollback iteration, the loader and the
    migration metric of [main].

    Modelling conventions.
    - Python [float] values are exact rationals ([Q]); the tolerance
      [1e-9] is [1 # 1000000000].  Comparisons are the boolean ones of
      [QArith]; sums are left folds starting at [0], as [sum] is.
    - Python [int] values that may be negative ([G], [max_iter], PM ids)
      are [Z]; lengths and the migration counter are [nat].
    - A [dict] keeps insertion order and iteration order matters here
      (target selection, first-fit scan), so [_pms] and [_vms] are lists
      of records in iteration order, looked up by the [id] field under
      which the constructor stored them.
    - Exceptions are the [Raise] branch of a small error monad; the
      state a raising call leaves behind is not modelled.
    - [random.Random.sample] and the iteration order of [set] are the
      two things the interpreter decides; they are section variables. *)

From Stdlib Require Import QArith Qround Lqa ZArith Lia Sorted.
From stdpp Require Import base option list strings.

Local Open Scope Z_scope.
Local Open Scope nat_scope.

(** ** Numbers *)

Definition eps : Q := 1 # 1000000000.

(** [sum(xs)]: a left fold from [0]. *)
Definition Qsum (l : list Q) : Q := fold_left Qplus l 0%Q.

(** [int(x)] on a float: truncation toward zero. *)
Definition py_int (x : Q) : Z :=
  if Qle_bool 0 x then Qfloor x else Qceiling x.

(** [xs[:G]] for an [int] bound [G]: a negative bound counts from the end. *)
Definition slice_to {A} (G : Z) (l : list A) : list A :=
  if (0 <=? G)%Z then take (Z.to_nat G) l
  else take (Z.to_nat (Z.of_nat (length l) + G)) l.

(** [sorted(xs, key=key, reverse=True)]: stable, descending. *)
Fixpoint insert_desc {A} (key : A -> Q) (x : A) (l : list A) : list A :=
  match l with
  | [] => [x]
  | y :: l' =>
      if Qle_bool (key y) (key x) then x :: y :: l'
      else y :: insert_desc key x l'
  end.

Definition sort_desc {A} (key : A -> Q) (l : list A) : list A :=
  foldr (insert_desc key) [] l.

(** [min(xs, key=key)] on a list: the first element with the least key;
    [None] stands for the empty argument. *)
Fixpoint py_min {A} (key : A -> nat) (l : list A) : option A :=
  match l with
  | [] => None
  | x :: l' =>
      match py_min key l' with
      | Some m => if key m <? key x then Some m else Some x
      | None => Some x
      end
  end.

(** ** Exceptions *)

Inductive exn : Type :=
| KeyError_vm (vid : string)
| KeyError_pm (h : Z)
| ValueError_no_pm (vid : string) (h : Z)
| ValueError_sample (k : Z) (n : nat).

Inductive result (A : Type) : Type :=
| Ok (a : A)
| Raise (e : exn).
Arguments Ok {A} a.
Arguments Raise {A} e.

Definition rbind {A B} (f : A -> result B) (m : result A) : result B :=
  match m with
  | Ok a => f a
  | Raise e => Raise e
  end.

#[global] Instance result_ret : MRet result := fun A a => Ok a.
#[global] Instance result_bind : MBind result := fun A B f m => rbind f m.

Fixpoint rmapM {A B} (f : A -> result B) (l : list A) : result (list B) :=
  match l with
  | [] => Ok []
  | x :: l' => y ← f x; ys ← rmapM f l'; Ok (y :: ys)
  end.

(** ** 1. Data model: VM and PM *)

Module VM.
Record t : Type := mk {
  id : string;
  u_c : Q;
  u_r : Q;
  mem : Q;
  pm_id : option Z
}.

(** The [u_max] property. *)
Definition u_max (vm : t) : Q := (u_c vm + u_r vm)%Q.

(** [vm.pm_id = h]. *)
Definition set_pm_id (h : option Z) (vm : t) : t :=
  mk (id vm) (u_c vm) (u_r vm) (mem vm) h.
End VM.

Module PM.
Record t : Type := mk {
  id : Z;
  cpu_cap : Q;
  mem_cap : Q;
  vms : list string;
  active : bool
}.

Definition set_vms (l : list string) (pm : t) : t :=
  mk (id pm) (cpu_cap pm) (mem_cap pm) l (active pm).

Definition set_active (b : bool) (pm : t) : t :=
  mk (id pm) (cpu_cap pm) (mem_cap pm) (vms pm) b.
End PM.

(** ** 2. Robust CPU usage *)

Definition robust_cpu_usage (vms_on_pm : list VM.t) (G : Z) : Q :=
  match vms_on_pm with
  | [] => 0%Q
  | _ =>
      let centers := map VM.u_c vms_on_pm in
      let radii := sort_desc (fun r => r) (map VM.u_r vms_on_pm) in
      (Qsum centers + Qsum (slice_to G radii))%Q
  end.

Definition Qgt_bool (a b : Q) : bool := negb (Qle_bool a b).

(** [bool(xs)] on a list. *)
Definition nonempty {A} (l : list A) : bool :=
  match l with [] => false | _ => true end.

(** ** Dictionaries of records

    [d[k]] finds the record stored under [k]; a mutation of the object
    [d[k]] rewrites that record in place, so the iteration order of the
    dictionary never changes. *)

Fixpoint alter_first {A} (p : A -> bool) (f : A -> A) (l : list A) : list A :=
  match l with
  | [] => []
  | x :: l' => if p x then f x :: l' else x :: alter_first p f l'
  end.

(** [d[key(x)] = x] on an insertion-ordered dictionary. *)
Fixpoint dict_set {A K} `{EqDecision K} (key : A -> K) (x : A) (d : list A)
  : list A :=
  match d with
  | [] => [x]
  | y :: d' =>
      if bool_decide (key y = key x) then x :: d'
      else y :: dict_set key x d'
  end.

(** [{key(x): x for x in xs}]. *)
Definition dict_of {A K} `{EqDecision K} (key : A -> K) (xs : list A)
  : list A :=
  fold_left (fun d x => dict_set key x d) xs [].

Definition vm_get (all_vms : list VM.t) (vid : string) : result VM.t :=
  match find (fun v => bool_decide (VM.id v = vid)) all_vms with
  | Some v => Ok v
  | None => Raise (KeyError_vm vid)
  end.

Definition vm_alter (f : VM.t -> VM.t) (vid : string) (all_vms : list VM.t)
  : list VM.t :=
  alter_first (fun v => bool_decide (VM.id v = vid)) f all_vms.

Definition pm_alter (f : PM.t -> PM.t) (h : Z) (pms : list PM.t)
  : list PM.t :=
  alter_first (fun pm => bool_decide (PM.id pm = h)) f pms.

(** ** Feasibility of one more VM on a PM *)

Definition can_place_vm_on_pm
  (vm : VM.t) (pm : PM.t) (all_vms : list VM.t) (G : Z) : result bool :=
  current ← rmapM (vm_get all_vms) (PM.vms pm);
  let current_vms := current ++ [vm] in
  let cpu := robust_cpu_usage current_vms G in
  if Qgt_bool cpu (PM.cpu_cap pm + eps) then Ok false
  else
    let mem := Qsum (map VM.mem current_vms) in
    if Qgt_bool mem (PM.mem_cap pm + eps) then Ok false
    else Ok true.

(** ** 3. The GammaFF solver *)

(** The entries of [errors] in [check_feasibility]; the source formats
    them as text with the same four pieces of data. *)
Inductive violation : Type :=
| CpuViolation (pm : Z) (cpu cap : Q)
| MemViolation (pm : Z) (mem cap : Q).

Definition check_pm (all_vms : list VM.t) (G : Z) (pm : PM.t)
  : result (list violation) :=
  vms_on_pm ← rmapM (vm_get all_vms) (PM.vms pm);
  let cpu := robust_cpu_usage vms_on_pm G in
  let mem := Qsum (map VM.mem vms_on_pm) in
  Ok ((if Qgt_bool cpu (PM.cpu_cap pm + eps)
       then [CpuViolation (PM.id pm) cpu (PM.cpu_cap pm)] else [])
      ++ (if Qgt_bool mem (PM.mem_cap pm + eps)
          then [MemViolation (PM.id pm) mem (PM.mem_cap pm)] else [])).

(** [_sync_vm_pm_lists], second loop: from [vm.pm_id] to [pm.vms]. *)
Fixpoint sync_append (vms : list VM.t) (pms : list PM.t)
  : result (list PM.t) :=
  match vms with
  | [] => Ok pms
  | vm :: rest =>
      match VM.pm_id vm with
      | None => sync_append rest pms
      | Some h =>
          if bool_decide (h ∈ map PM.id pms)
          then sync_append rest
                 (pm_alter (fun pm => PM.set_vms (PM.vms pm ++ [VM.id vm]) pm)
                    h pms)
          else Raise (ValueError_no_pm (VM.id vm) h)
      end
  end.

Definition refresh_active (pms : list PM.t) : list PM.t :=
  map (fun pm => PM.set_active (nonempty (PM.vms pm)) pm) pms.

Definition _sync_vm_pm_lists (pms : list PM.t) (vms : list VM.t)
  : result (list PM.t) :=
  pms' ← sync_append vms (map (PM.set_vms []) pms);
  Ok (refresh_active pms').

(** Step 1 of an iteration: the PM to empty, the [min] over the PMs
    that have a VM; [None] when there is none (the early [return False]). *)
Definition select_target (pms : list PM.t) : option PM.t :=
  py_min (fun pm => length (PM.vms pm))
         (filter (fun pm => PM.vms pm ≠ []) pms).

(** Step 4, inner loop: the first PM of the scan that admits [vm]. *)
Fixpoint first_fit (vm : VM.t) (pms : list PM.t) (all_vms : list VM.t) (G : Z)
  : result (option (Z * list PM.t)) :=
  match pms with
  | [] => Ok None
  | pm :: rest =>
      ok ← can_place_vm_on_pm vm pm all_vms G;
      if ok : bool
      then Ok (Some (PM.id pm,
                     PM.set_active true
                       (PM.set_vms (PM.vms pm ++ [VM.id vm]) pm) :: rest))
      else
        r ← first_fit vm rest all_vms G;
        Ok (match r with
            | Some (h, rest') => Some (h, pm :: rest')
            | None => None
            end)
  end.

(** Step 4, outer loop over the queue. *)
Fixpoint place_all (queue : list string) (pms : list PM.t)
  (all_vms : list VM.t) (G : Z) : result (bool * list PM.t * list VM.t) :=
  match queue with
  | [] => Ok (true, pms, all_vms)
  | vid :: rest =>
      vm ← vm_get all_vms vid;
      r ← first_fit vm pms all_vms G;
      match r with
      | Some (h, pms') =>
          place_all rest pms'
            (vm_alter (VM.set_pm_id (Some h)) vid all_vms) G
      | None => Ok (false, pms, all_vms)
      end
  end.

(** The migration count of a committed iteration. *)
Fixpoint count_moves (snapshot_vms vms : list VM.t) (count : nat)
  : result nat :=
  match vms with
  | [] => Ok count
  | vm_new :: rest =>
      old ← vm_get snapshot_vms (VM.id vm_new);
      count_moves snapshot_vms rest
        (if bool_decide (VM.pm_id old ≠ VM.pm_id vm_new)
         then S count else count)
  end.

Section Solver.
(** The state of a [random.Random] and its [sample(population, k)]
    for [0 <= k <= len(population)]; the iteration order of
    [set(xs)]. *)
Context {Rng : Type}.
Variable rng_sample : Rng -> list string -> nat -> list string * Rng.
Variable set_iter : list string -> list string.

Record GammaFFSolver : Type := mkSolver {
  G : Z;
  sample_ratio : Q;
  max_iter : Z;
  _vms : list VM.t;
  _pms : list PM.t;
  rng : Rng;
  migration_count : nat
}.

Definition init (pms : list PM.t) (vms : list VM.t) (G : Z)
  (sample_ratio : Q) (max_iter : Z) (rng : Rng) : result GammaFFSolver :=
  let vms_dict := dict_of VM.id vms in
  let pms_dict := dict_of PM.id pms in
  pms' ← _sync_vm_pm_lists pms_dict vms_dict;
  Ok (mkSolver G sample_ratio max_iter vms_dict pms' rng 0).

Definition check_feasibility (s : GammaFFSolver)
  : result (bool * list violation) :=
  per_pm ← rmapM (check_pm (_vms s) (G s)) (_pms s);
  let errors := concat per_pm in
  Ok (bool_decide (length errors = 0), errors).

(** [rng.sample(population, k)]. *)
Definition sample (r : Rng) (population : list string) (k : Z)
  : result (list string * Rng) :=
  if bool_decide (0 ≤ k ≤ Z.of_nat (length population))%Z
  then Ok (rng_sample r population (Z.to_nat k))
  else Raise (ValueError_sample k (length population)).

(** Step 2.2: a sample of every other non-empty PM joins the queue. *)
Fixpoint sample_others (target : Z) (ratio : Q) (pms : list PM.t)
  (r : Rng) (queue : list string)
  : result (list PM.t * Rng * list string) :=
  match pms with
  | [] => Ok ([], r, queue)
  | pm :: rest =>
      if bool_decide (PM.id pm = target) || negb (nonempty (PM.vms pm))
      then
        '(rest', r', queue') ← sample_others target ratio rest r queue;
        Ok (pm :: rest', r', queue')
      else
        let k :=
          Z.max 1 (py_int (inject_Z (Z.of_nat (length (PM.vms pm)))
                           * ratio)%Q) in
        '(sampled, r1) ← sample r (PM.vms pm) k;
        let pm' :=
          PM.set_vms (filter (fun vid => vid ∉ sampled) (PM.vms pm)) pm in
        '(rest', r', queue') ←
          sample_others target ratio rest r1 (queue ++ sampled);
        Ok (pm' :: rest', r', queue')
  end.

(** Step 3: deduplicate, then sort by [u_max], largest first. *)
Definition order_queue (all_vms : list VM.t) (queue_vm_ids : list string)
  : result (list string) :=
  keyed ← rmapM (fun vid => vm ← vm_get all_vms vid; Ok (VM.u_max vm, vid))
                (set_iter queue_vm_ids);
  Ok (map snd (sort_desc fst keyed)).

Definition _single_iteration (s : GammaFFSolver)
  : result (bool * GammaFFSolver) :=
  let snapshot_pms := _pms s in
  let snapshot_vms := _vms s in
  match select_target (_pms s) with
  | None => Ok (false, s)
  | Some pm_empty =>
      let queue0 := PM.vms pm_empty in
      let pms1 := pm_alter (PM.set_vms []) (PM.id pm_empty) (_pms s) in
      '(pms2, rng', queue1) ←
        sample_others (PM.id pm_empty) (sample_ratio s) pms1 (rng s) queue0;
      queue ← order_queue (_vms s) queue1;
      '(placed_all, pms3, vms3) ← place_all queue pms2 (_vms s) (G s);
      if placed_all : bool
      then
        count ← count_moves snapshot_vms vms3 (migration_count s);
        Ok (true, mkSolver (G s) (sample_ratio s) (max_iter s)
                    vms3 (refresh_active pms3) rng' count)
      else
        Ok (false, mkSolver (G s) (sample_ratio s) (max_iter s)
                     snapshot_vms snapshot_pms rng' (migration_count s))
  end.

(** [run]: [fuel] is the number of loop tests still to pass,
    [max_iter - iter_count]. *)
Fixpoint run_loop (fuel : nat) (improved_anything : bool)
  (s : GammaFFSolver) : result (bool * GammaFFSolver) :=
  match fuel with
  | 0 => Ok (improved_anything, s)
  | S fuel' =>
      '(success, s') ← _single_iteration s;
      if success : bool then run_loop fuel' true s'
      else Ok (improved_anything, s')
  end.

Definition run (s : GammaFFSolver) : result (bool * GammaFFSolver) :=
  run_loop (Z.to_nat (max_iter s)) false s.

(** The calls of [_single_iteration] that [run] makes, in order: the
    state before, the value returned and the state after. *)
Record call : Type := mkCall {
  before : GammaFFSolver;
  returned : bool;
  after : GammaFFSolver
}.

Fixpoint run_calls (fuel : nat) (s : GammaFFSolver) : result (list call) :=
  match fuel with
  | 0 => Ok []
  | S fuel' =>
      '(success, s') ← _single_iteration s;
      if success : bool
      then rest ← run_calls fuel' s'; Ok (mkCall s success s' :: rest)
      else Ok [mkCall s success s']
  end.

(** The first-fit pass of the iteration that starts in [s] leaves
    some queued VM [vid] that no PM admits. *)
Definition placement_fails (s : GammaFFSolver) : Prop :=
  ∃ pm_empty pms2 rng' queue1 queue pms3 vms3 vid vm,
    select_target (_pms s) = Some pm_empty ∧
    sample_others (PM.id pm_empty) (sample_ratio s)
      (pm_alter (PM.set_vms []) (PM.id pm_empty) (_pms s))
      (rng s) (PM.vms pm_empty) = Ok (pms2, rng', queue1) ∧
    order_queue (_vms s) queue1 = Ok queue ∧
    place_all queue pms2 (_vms s) (G s) = Ok (false, pms3, vms3) ∧
    vid ∈ queue ∧ vm_get vms3 vid = Ok vm ∧
    Forall (fun pm => can_place_vm_on_pm vm pm vms3 (G s) = Ok false) pms3.

(** [calls] is a run of consecutive calls of [_single_iteration]
    that starts in state [s]. *)
Fixpoint chained (s : GammaFFSolver) (calls : list call) : Prop :=
  match calls with
  | [] => True
  | c :: rest =>
      before c = s ∧
      _single_iteration s = Ok (returned c, after c) ∧
      chained (after c) rest
  end.

(** The state the calls leave behind. *)
Definition final (s : GammaFFSolver) (calls : list call) : GammaFFSolver :=
  match last calls with
  | Some c => after c
  | None => s
  end.

End Solver.

Arguments GammaFFSolver : clear implicits.
Arguments call : clear implicits.

(** ** Read-only views of the solver *)

Definition active_pms {Rng} (s : GammaFFSolver Rng) : list PM.t :=
  filter (fun pm => PM.vms pm ≠ []) (_pms s).

Definition inactive_pms {Rng} (s : GammaFFSolver Rng) : list PM.t :=
  filter (fun pm => PM.vms pm = []) (_pms s).

Definition count_active_pms {Rng} (s : GammaFFSolver Rng) : nat :=
  length (active_pms s).

(** The loop of [total_robust_cpu_per_pm]; [acc] is the dictionary
    [result], keyed by PM identifier. *)
Fixpoint total_robust_cpu_loop (all_vms : list VM.t) (G : Z)
  (pms : list PM.t) (acc : list (Z * Q)) : result (list (Z * Q)) :=
  match pms with
  | [] => Ok acc
  | pm :: rest =>
      vms_on_pm ← rmapM (vm_get all_vms) (PM.vms pm);
      total_robust_cpu_loop all_vms G rest
        (dict_set fst (PM.id pm, robust_cpu_usage vms_on_pm G) acc)
  end.

Definition total_robust_cpu_per_pm {Rng} (s : GammaFFSolver Rng)
  : result (list (Z * Q)) :=
  total_robust_cpu_loop (_vms s) (G s) (_pms s) [].

(** ** The second migration metric of [main]

    [initial_pm_of_vm] is the dictionary [{vm.id: vm.pm_id for vm in vms}]
    taken before the solver is built; [migrated_vms] is the loop that
    counts the VMs whose final PM differs from the initial one. *)

Definition initial_pm_of_vm (vms : list VM.t) : list (string * option Z) :=
  dict_of fst (map (fun vm => (VM.id vm, VM.pm_id vm)) vms).

(** [d.get(k, None)] on a dictionary of optional values. *)
Definition get_or_None (d : list (string * option Z)) (k : string)
  : option Z :=
  match find (fun e => bool_decide (e.1 = k)) d with
  | Some e => e.2
  | None => None
  end.

Fixpoint migrated_vms (initial : list (string * option Z))
  (vms : list VM.t) (count : nat) : nat :=
  match vms with
  | [] => count
  | vm :: rest =>
      let old_pm := get_or_None initial (VM.id vm) in
      let new_pm := VM.pm_id vm in
      migrated_vms initial rest
        (if bool_decide (old_pm ≠ None) && bool_decide (new_pm ≠ None)
            && bool_decide (old_pm ≠ new_pm)
         then S count else count)
  end.

(** ** 4. The loader

    [load_huawei_percentile] after [json.load]: the data is a list of PM
    entries, each with its list of VM entries; the fields are taken
    with the types the conversions [int], [float] and [str] give them.
    [np.percentile] is a section variable. *)

Module Raw.

Record vm_entry : Type := mk_vm {
  vm_id : string;
  vcpus : Q;
  memory : Q;
  cpu_usage : list Q
}.

Record pm_entry : Type := mk_pm {
  pm_id : Z;
  threshold : Q;
  total_cpu : Q;
  total_memory : Q;
  vms : list vm_entry
}.

End Raw.

Section Loader.
Variable percentile : list Q → Q → Q.

(** The body of the inner loop: the VM built from one VM entry. *)
Definition load_vm (pm_id : Z) (vm_entry : Raw.vm_entry) : VM.t :=
  let cpu_usage :=
    map (fun x => x * Raw.vcpus vm_entry / 100)%Q (Raw.cpu_usage vm_entry) in
  let cpu_max := percentile cpu_usage 95 in
  let cpu_min := percentile cpu_usage 5 in
  let u_c := ((cpu_max + cpu_min) / 2)%Q in
  let u_r := ((cpu_max - cpu_min) / 2)%Q in
  VM.mk (Raw.vm_id vm_entry) u_c u_r (Raw.memory vm_entry) (Some pm_id).

Fixpoint load_loop (raw_data : list Raw.pm_entry) (pms : list PM.t)
  (vms : list VM.t) : list PM.t * list VM.t :=
  match raw_data with
  | [] => (pms, vms)
  | pm_entry :: rest =>
      let pm_id := Raw.pm_id pm_entry in
      let cpu_cap := (Raw.threshold pm_entry * Raw.total_cpu pm_entry)%Q in
      let mem_cap := Raw.total_memory pm_entry in
      load_loop rest
        (pms ++ [PM.mk pm_id cpu_cap mem_cap [] true])
        (vms ++ map (load_vm pm_id) (Raw.vms pm_entry))
  end.

Definition load_huawei_percentile (raw_data : list Raw.pm_entry) (G : Z)
  : list PM.t * list VM.t * Z :=
  let '(pms, vms) := load_loop raw_data [] [] in
  (pms, vms, G).

End Loader.

(** ** Two interpreters

    A generator whose [sample] returns the first [k] elements of the
    population, and two iteration orders for [set]: first occurrences in
    insertion order, and the reverse of that. *)

Definition head_sample (r : unit) (population : list string) (k : nat)
  : list string * unit := (take k population, r).

Definition set_iter_fwd (l : list string) : list string := remove_dups l.

Definition set_iter_rev (l : list string) : list string :=
  reverse (remove_dups l).

(** ** Vocabulary of the statements *)

(** Every element is followed only by elements of no larger key. *)
Definition desc {A} (key : A -> Q) (l : list A) : Prop :=
  StronglySorted (fun a b => (key b <= key a)%Q) l.

(** The number of elements [xs[:G]] keeps of a list of [n]. *)
Definition slice_len (G : Z) (n : nat) : nat :=
  if (0 <=? G)%Z then Z.to_nat G else Z.to_nat (Z.of_nat n + G).


(** The host a dictionary of VMs records for [vid], if it has that VM. *)
Definition assignment (vms : list VM.t) (vid : string) : option (option Z) :=
  VM.pm_id <$> find (fun v => bool_decide (VM.id v = vid)) vms.

(** The number of VMs of [vms] whose host is not the one [snapshot_vms]
    records for them. *)
Definition moved (snapshot_vms vms : list VM.t) : nat :=
  length (filter (fun vm => assignment snapshot_vms (VM.id vm)
                            ≠ Some (VM.pm_id vm)) vms).

(** The moves of the calls that committed. *)
Definition committed_moves {Rng} (calls : list (call Rng)) : nat :=
  sum_list (map (fun c => if returned c
                          then moved (_vms (before c)) (_vms (after c))
                          else 0) calls).

(** The sort key of [vid] in the queue. *)
Definition u_max_of (all_vms : list VM.t) (vid : string) : Q :=
  match vm_get all_vms vid with
  | Ok vm => VM.u_max vm
  | Raise _ => 0%Q
  end.



(** [pm'] is [pm] with some VMs taken off its list. *)
Definition shrunk (pm pm' : PM.t) : Prop :=
  PM.cpu_cap pm' = PM.cpu_cap pm ∧ PM.mem_cap pm' = PM.mem_cap pm ∧
  PM.vms pm' `sublist_of` PM.vms pm.

(** The same VM, possibly on another PM. *)
Definition same_demand (vm vm' : VM.t) : Prop :=
  VM.id vm' = VM.id vm ∧ VM.u_c vm' = VM.u_c vm ∧
  VM.u_r vm' = VM.u_r vm ∧ VM.mem vm' = VM.mem vm.




(** Every VM listed on [pm] is a key of the dictionary of VMs. *)
Definition known (all_vms : list VM.t) (pm : PM.t) : Prop :=
  Forall (fun vid => vid ∈ map VM.id all_vms) (PM.vms pm).

(** The states in which no lookup fails and every sample is at most as
    large as its population. *)
Definition well_formed {Rng} (s : GammaFFSolver Rng) : Prop :=
  Forall (known (_vms s)) (_pms s) ∧ (sample_ratio s <= 1)%Q.

(** [sample] returns elements of the population; the iteration of a
    set yields elements of the set. *)
Definition lawful_sample {Rng}
  (rng_sample : Rng -> list string -> nat -> list string * Rng) : Prop :=
  ∀ r population k, k ≤ length population →
    (rng_sample r population k).1 ⊆ population.

Definition lawful_set_iter (set_iter : list string -> list string) : Prop :=
  ∀ l, set_iter l ⊆ l.

(** [pm'] is the PM [pm], whatever VMs are listed on it. *)
Definition same_host (pm pm' : PM.t) : Prop :=
  PM.id pm' = PM.id pm ∧ PM.cpu_cap pm' = PM.cpu_cap pm ∧
  PM.mem_cap pm' = PM.mem_cap pm.

(** All the VM identifiers listed on the PMs, PM after PM. *)
Definition listed_ids (pms : list PM.t) : list string :=
  concat (map PM.vms pms).

(** The two sides of the placement agree: identifiers are keys, no VM
    is listed twice, a VM listed on a PM has that PM as its [pm_id], a
    VM whose [pm_id] is a PM is listed on that PM, and [active] says
    whether the list is non-empty. *)
Definition in_sync (pms : list PM.t) (vms : list VM.t) : Prop :=
  NoDup (map PM.id pms) ∧ NoDup (map VM.id vms) ∧
  NoDup (listed_ids pms) ∧
  (∀ pm vid, pm ∈ pms → vid ∈ PM.vms pm →
     assignment vms vid = Some (Some (PM.id pm))) ∧
  (∀ vid h, assignment vms vid = Some (Some h) →
     ∃ pm, pm ∈ pms ∧ PM.id pm = h ∧ vid ∈ PM.vms pm) ∧
  Forall (fun pm => PM.active pm = nonempty (PM.vms pm)) pms.

(** The iteration of a set yields each element once. *)
Definition exact_set_iter (set_iter : list string -> list string) : Prop :=
  (∀ l, NoDup (set_iter l)) ∧ (∀ l vid, vid ∈ set_iter l ↔ vid ∈ l).




(** ** Sample inputs *)

Definition two_vms : list VM.t :=
  [VM.mk "a" 3 1 2 (Some 1%Z); VM.mk "b" 3 2 2 (Some 1%Z)].


(** Two PMs; [z] fits on PM 1 once [x] has left it, and then [x] fits
    nowhere: PM 1 has no CPU left and PM 2 too little memory. *)
Definition tight_pms : list PM.t :=
  [PM.mk 1 10 100 [] true; PM.mk 2 6 1 [] true].

Definition tight_vms : list VM.t :=
  [VM.mk "x" 5 0 5 (Some 1%Z); VM.mk "y" 4 0 1 (Some 1%Z);
   VM.mk "z" 6 0 1 (Some 2%Z)].

(** The solver a successful constructor call returns. *)
Definition solver_of (r : result (GammaFFSolver unit)) : GammaFFSolver unit :=
  match r with
  | Ok s => s
  | Raise _ => mkSolver 0 0 0 [] [] tt 0
  end.

Definition tight_solver : GammaFFSolver unit :=
  Eval vm_compute in solver_of (init tight_pms tight_vms 1 (15 # 100) 5 tt).

(** The hosts are given with the larger identifier first; each holds
    one VM and the two VMs have the same demand. *)
Definition swapped_pms : list PM.t :=
  [PM.mk 2 10 10 [] true; PM.mk 1 10 10 [] true].

Definition swapped_vms : list VM.t :=
  [VM.mk "a" 3 1 2 (Some 1%Z); VM.mk "b" 3 1 2 (Some 2%Z)].

Definition swapped_solver : GammaFFSolver unit :=
  Eval vm_compute in
    solver_of (init swapped_pms swapped_vms 1 (15 # 100) 3 tt).

(** Three PMs.  The first iteration commits and moves [w] to PM 1; in
    the second [z] takes the room [x] left on PM 1 and [x] fits nowhere,
    so it is rolled back. *)
Definition churn_pms : list PM.t :=
  [PM.mk 1 10 100 [] true; PM.mk 2 6 1 [] true; PM.mk 3 4 100 [] true].

Definition churn_vms : list VM.t :=
  [VM.mk "y" 4 0 1 (Some 1%Z); VM.mk "x" 5 0 5 (Some 1%Z);
   VM.mk "z" 6 0 1 (Some 2%Z); VM.mk "w" 0 0 1 (Some 3%Z)].

Definition churn_solver : GammaFFSolver unit :=
  Eval vm_compute in
    solver_of (init churn_pms churn_vms 1 (15 # 100) 5 tt).

Definition churn_final : GammaFFSolver unit :=
  Eval vm_compute in
    match run head_sample set_iter_fwd churn_solver with
    | Ok (_, s) => s
    | Raise _ => churn_solver
    end.


(** One PM with one VM, and room to spare. *)
Definition lone_pms : list PM.t := [PM.mk 1 10 10 [] true].

Definition lone_vms : list VM.t := [VM.mk "a" 3 1 2 (Some 1%Z)].

Definition lone_solver {Rng} (r : Rng) : GammaFFSolver Rng :=
  mkSolver 1 (15 # 100) 1 lone_vms [PM.mk 1 10 10 ["a"] true] r 0.

(** * Properties *)

(** ** Sums *)

Section Sums.
Local Open Scope Q_scope.








End Sums.

(** ** Sorting, largest first *)

Section Sorting.
Local Open Scope Q_scope.
Context {A : Type} (key : A → Q).

Lemma insert_desc_perm (x : A) (l : list A) : insert_desc key x l ≡ₚ x :: l.
Proof.
  induction l as [|y l IH]; simpl; [done|].
  destruct (Qle_bool (key y) (key x)); [done|].
  rewrite IH. apply Permutation_swap.
Qed.

Lemma sort_desc_perm (l : list A) : sort_desc key l ≡ₚ l.
Proof.
  induction l as [|x l IH]; simpl; [done|].
  fold (sort_desc key l). by rewrite insert_desc_perm, IH.
Qed.

Lemma sort_desc_length (l : list A) : length (sort_desc key l) = length l.
Proof. by rewrite sort_desc_perm. Qed.

Lemma insert_desc_sorted (x : A) (l : list A) :
  desc key l → desc key (insert_desc key x l).
Proof.
  induction 1 as [|y l Hl IH Hy]; simpl.
  - repeat constructor.
  - destruct (Qle_bool (key y) (key x)) eqn:E.
    + apply Qle_bool_iff in E.
      constructor; [by constructor|].
      constructor; [done|].
      eapply Forall_impl; [exact Hy|]. simpl. intros z Hz. lra.
    + assert (key x < key y) as Hlt.
      { destruct (Qlt_le_dec (key x) (key y)) as [|Hle]; [done|].
        apply Qle_bool_iff in Hle. congruence. }
      constructor; [done|].
      rewrite insert_desc_perm. constructor; [lra|done].
Qed.

Lemma sort_desc_sorted (l : list A) : desc key (sort_desc key l).
Proof.
  induction l as [|x l IH]; simpl; [constructor|].
  by apply insert_desc_sorted.
Qed.

(** Stability: elements the sort cannot tell apart keep their order. *)
Lemma insert_desc_stable (p : A → bool) (x : A) (l : list A) :
  (∀ y, y ∈ l → p x = true → p y = true → key y == key x) →
  List.filter p (insert_desc key x l) = List.filter p (x :: l).
Proof.
  induction l as [|y l IH]; intros Hkey; simpl; [done|].
  destruct (Qle_bool (key y) (key x)) eqn:E; [done|].
  simpl. rewrite IH by (intros z Hz; apply Hkey; by right).
  simpl. destruct (p x) eqn:Hx, (p y) eqn:Hy; try done.
  exfalso. assert (key y == key x) as Heq by (apply Hkey; [left|..]; done).
  assert (Qle_bool (key y) (key x) = true) by (apply Qle_bool_iff; lra).
  congruence.
Qed.

Lemma sort_desc_stable (p : A → bool) (l : list A) :
  (∀ x y, x ∈ l → y ∈ l → p x = true → p y = true → key x == key y) →
  List.filter p (sort_desc key l) = List.filter p l.
Proof.
  induction l as [|x l IH]; intros Hkey; simpl; [done|].
  fold (sort_desc key l). rewrite insert_desc_stable.
  - simpl. rewrite IH; [done|].
    intros y z Hy Hz. apply Hkey; by right.
  - intros y Hy Hpx Hpy. rewrite sort_desc_perm in Hy.
    apply Hkey; [by right|by left|done..].
Qed.
End Sorting.

(** ** The largest elements of a list of rationals *)

Section Largest.
Local Open Scope Q_scope.

Local Abbreviation sortQ := (sort_desc (fun r : Q => r)).
Local Abbreviation descQ := (desc (fun r : Q => r)).






Lemma slice_to_take {A} (G : Z) (l : list A) :
  slice_to G l = take (slice_len G (length l)) l.
Proof. unfold slice_to, slice_len. by destruct (0 <=? G)%Z. Qed.


Lemma robust_cpu_usage_eq (vms : list VM.t) (G : Z) :
  robust_cpu_usage vms G ==
  Qsum (map VM.u_c vms) + Qsum (slice_to G (sortQ (map VM.u_r vms))).
Proof.
  destruct vms; [|reflexivity].
  rewrite slice_to_take. simpl. rewrite take_nil. reflexivity.
Qed.


End Largest.

(** ** The robust CPU evaluator *)

Section Evaluator.
Local Open Scope Q_scope.

Local Abbreviation sortQ := (sort_desc (fun r : Q => r)).





Lemma slice_len_nonneg (G : Z) (n : nat) :
  (0 ≤ G)%Z → slice_len G n = Z.to_nat G.
Proof.
  intros HG. unfold slice_len.
  by destruct (Z.leb_spec 0 G); [|lia].
Qed.
End Evaluator.






(** ** The error monad *)

Lemma bind_Ok_inv {A B} (m : result A) (f : A → result B) (b : B) :
  m ≫= f = Ok b → ∃ a, m = Ok a ∧ f a = Ok b.
Proof. destruct m as [a|e]; [|done]. intros H. by exists a. Qed.

(** Splits [H : (x ← m; k) = Ok r] as far as possible. *)
Ltac inv_bind H :=
  repeat (
    let a := fresh "a" in
    let E := fresh "E" in
    apply bind_Ok_inv in H as (a & E & H);
    repeat match type of H with
           | context [let '(_, _) := ?p in _] => destruct p
           end;
    cbv beta iota in H).




(** ** The first-fit pass *)

Lemma first_fit_None (vm : VM.t) (pms : list PM.t) (all_vms : list VM.t)
  (G : Z) :
  first_fit vm pms all_vms G = Ok None ↔
  Forall (fun pm => can_place_vm_on_pm vm pm all_vms G = Ok false) pms.
Proof.
  induction pms as [|pm pms IH]; simpl.
  - split; [constructor|done].
  - rewrite Forall_cons.
    destruct (can_place_vm_on_pm vm pm all_vms G) as [[|]|e] eqn:E; simpl;
      [split; [done|intros [? _]; congruence]| |
       split; [done|intros [? _]; congruence]].
    destruct (first_fit vm pms all_vms G) as [[[h rest']|]|e] eqn:E'; simpl.
    + split; [done|]. intros [_ H]. apply IH in H. done.
    + split; [|done]. intros _. split; [done|]. by apply IH.
    + split; [done|]. intros [_ H]. apply IH in H. done.
Qed.

(** A pass reports [false] because some queued VM is admitted by no PM
    of the scan. *)
Lemma place_all_false (queue : list string) (pms : list PM.t)
  (all_vms : list VM.t) (G : Z) pms' vms' :
  place_all queue pms all_vms G = Ok (false, pms', vms') →
  ∃ vid vm, vid ∈ queue ∧ vm_get vms' vid = Ok vm ∧
    Forall (fun pm => can_place_vm_on_pm vm pm vms' G = Ok false) pms'.
Proof.
  revert pms all_vms.
  induction queue as [|vid queue IH]; intros pms all_vms H; simpl in H.
  - done.
  - inv_bind H.
    destruct a0 as [[h pms1]|].
    + destruct (IH _ _ H) as (vid' & vm' & Hin & Hget & Hall).
      exists vid', vm'. split; [by right|done].
    + inversion H; subst. exists vid, a. split; [by left|].
      split; [done|]. by apply first_fit_None.
Qed.

(** ** One iteration *)

Section Iteration.
Context {Rng : Type}.
Variable rng_sample : Rng → list string → nat → list string * Rng.
Variable set_iter : list string → list string.

Local Abbreviation iteration := (_single_iteration rng_sample set_iter).

(** A pass that fails is reported, not raised. *)
Lemma placement_fails_reported (s : GammaFFSolver Rng) :
  select_target (_pms s) = None ∨ placement_fails rng_sample set_iter s →
  ∃ s', iteration s = Ok (false, s').
Proof.
  unfold _single_iteration. intros [->|Hfail]; [by eexists|].
  destruct Hfail as (pm_empty & pms2 & rng' & queue1 & queue & pms3 & vms3
                     & vid & vm & -> & -> & Horder & Hplace & _).
  simpl. rewrite Horder. simpl. rewrite Hplace. simpl. by eexists.
Qed.

(** C1. An iteration that returns reports failure exactly when there
    is no PM to empty or some queued VM is admitted by no PM; whenever
    it reports failure, the PMs (resident lists included), the VMs
    (host assignments included) and the migration counter are those
    of the state it started in. *)
Theorem failed_iteration_restores (s s' : GammaFFSolver Rng) (b : bool) :
  iteration s = Ok (b, s') →
  (b = false ↔
   select_target (_pms s) = None ∨ placement_fails rng_sample set_iter s) ∧
  (b = false →
   _pms s' = _pms s ∧ _vms s' = _vms s ∧
   migration_count s' = migration_count s).
Proof.
  unfold _single_iteration. intros H.
  destruct (select_target (_pms s)) as [pm_empty|] eqn:Etarget.
  - apply bind_Ok_inv in H as ([[pms2 rng'] queue1] & Esample & H).
    apply bind_Ok_inv in H as (queue & Eorder & H).
    apply bind_Ok_inv in H as ([[placed_all pms3] vms3] & Eplace & H).
    cbv beta iota in H. destruct placed_all.
    + apply bind_Ok_inv in H as (count & Ecount & H).
      inversion H; subst. split; [|done].
      split; [done|]. intros [?|Hfail]; [done|].
      destruct Hfail as (?&?&?&?&?&?&?&?&?&Ht&Hs&Hq&Hp&_).
      congruence.
    + inversion H; subst. simpl. split; [|done].
      split; [|done]. intros _. right.
      destruct (place_all_false _ _ _ _ _ _ Eplace)
        as (vid & vm & ? & ? & ?).
      by exists pm_empty, pms2, rng', queue1, queue, pms3, vms3, vid, vm.
  - inversion H; subst. split; [|done]. split; [by left|done].
Qed.
End Iteration.

Lemma failed_iteration_restores_witness :
  _single_iteration head_sample set_iter_fwd tight_solver
  = Ok (false, tight_solver) ∧
  (select_target (_pms tight_solver) = None
   ∨ placement_fails head_sample set_iter_fwd tight_solver) ∧
  _pms tight_solver = _pms tight_solver ∧
  _vms tight_solver = _vms tight_solver ∧
  migration_count tight_solver = migration_count tight_solver.
Proof.
  assert (_single_iteration head_sample set_iter_fwd tight_solver
          = Ok (false, tight_solver)) as H by (vm_compute; reflexivity).
  destruct (failed_iteration_restores head_sample set_iter_fwd
              tight_solver tight_solver false H) as [Hfail Hsame].
  split; [exact H|]. split; [by apply Hfail|by apply Hsame].
Defined.

(** The rolled-back pass of [tight_solver] had moved ["z"] from PM 2 to
    PM 1 before ["x"] found no PM; the iteration leaves no trace of it. *)
Example rolled_back_pass_had_moved :
  ∃ pms2 queue pms3 vms3,
    sample_others head_sample 2 (sample_ratio tight_solver)
      (pm_alter (PM.set_vms []) 2 (_pms tight_solver)) tt ["z"]
    = Ok (pms2, tt, ["z"; "x"]) ∧
    order_queue set_iter_fwd (_vms tight_solver) ["z"; "x"] = Ok queue ∧
    place_all queue pms2 (_vms tight_solver) 1 = Ok (false, pms3, vms3) ∧
    assignment (_vms tight_solver) "z" = Some (Some 2%Z) ∧
    assignment vms3 "z" = Some (Some 1%Z) ∧
    _single_iteration head_sample set_iter_fwd tight_solver
    = Ok (false, tight_solver).
Proof.
  eexists _, _, _, _.
  split; [vm_compute; reflexivity|]. split; [vm_compute; reflexivity|].
  split; [vm_compute; reflexivity|]. split; [vm_compute; reflexivity|].
  split; vm_compute; reflexivity.
Qed.

(** ** Target selection *)

Lemma py_min_filter {A} (key : A → nat) (P : A → Prop)
  `{!∀ x, Decision (P x)} (l : list A) :
  match py_min key (filter P l) with
  | None => Forall (fun x => ¬ P x) l
  | Some t =>
      ∃ l1 l2, l = l1 ++ t :: l2 ∧ P t ∧
        Forall (fun x => ¬ P x ∨ key t < key x) l1 ∧
        Forall (fun x => ¬ P x ∨ key t ≤ key x) l2
  end.
Proof.
  induction l as [|x l IH]; [constructor|].
  rewrite filter_cons. destruct (decide (P x)) as [Hx|Hx].
  - simpl. destruct (py_min key (filter P l)) as [m|].
    + destruct IH as (l1 & l2 & -> & Hm & H1 & H2).
      destruct (Nat.ltb_spec (key m) (key x)) as [Hlt|Hge].
      * exists (x :: l1), l2. split; [done|]. split; [done|].
        split; [|done]. constructor; [by right|done].
      * exists [], (l1 ++ m :: l2). split; [done|]. split; [done|].
        split; [constructor|]. apply Forall_app. split.
        -- eapply Forall_impl; [exact H1|]. simpl. intros y [?|?]; [by left|].
           right. lia.
        -- constructor; [right; lia|].
           eapply Forall_impl; [exact H2|]. simpl. intros y [?|?]; [by left|].
           right. lia.
    + exists [], l. split; [done|]. split; [done|]. split; [constructor|].
      eapply Forall_impl; [exact IH|]. simpl. intros y ?. by left.
  - destruct (py_min key (filter P l)) as [m|].
    + destruct IH as (l1 & l2 & -> & Hm & H1 & H2).
      exists (x :: l1), l2. split; [done|]. split; [done|].
      split; [|done]. constructor; [by left|done].
    + by constructor.
Qed.

(** C6, as the code has it.  When no PM has a VM the iteration returns
    [False] at once and changes nothing.  Otherwise the PM to empty has
    a VM, no PM with a VM has fewer, and among the PMs with as few it is
    the first in the iteration order of [_pms] (the order in which the
    identifiers first occur in the constructor's list of PMs): every PM
    before it is empty or has strictly more VMs. *)
Theorem select_target_first_fewest {Rng : Type}
  (rng_sample : Rng → list string → nat → list string * Rng)
  (set_iter : list string → list string) (s : GammaFFSolver Rng) :
  match select_target (_pms s) with
  | None =>
      Forall (fun pm => PM.vms pm = []) (_pms s) ∧
      _single_iteration rng_sample set_iter s = Ok (false, s)
  | Some pm_empty =>
      ∃ earlier later,
        _pms s = earlier ++ pm_empty :: later ∧
        PM.vms pm_empty ≠ [] ∧
        Forall (fun pm => PM.vms pm = [] ∨
                  length (PM.vms pm_empty) < length (PM.vms pm)) earlier ∧
        Forall (fun pm => PM.vms pm = [] ∨
                  length (PM.vms pm_empty) ≤ length (PM.vms pm)) later
  end.
Proof.
  pose proof (py_min_filter (fun pm => length (PM.vms pm))
                (fun pm => PM.vms pm ≠ []) (_pms s)) as H.
  unfold _single_iteration. fold (select_target (_pms s)) in H.
  destruct (select_target (_pms s)) as [t|].
  - destruct H as (l1 & l2 & Hs & Ht & H1 & H2).
    exists l1, l2. split; [done|]. split; [done|]. split.
    + eapply Forall_impl; [exact H1|]. simpl. intros pm [Hpm|?]; [|by right].
      left. by destruct (decide (PM.vms pm = [])).
    + eapply Forall_impl; [exact H2|]. simpl. intros pm [Hpm|?]; [|by right].
      left. by destruct (decide (PM.vms pm = [])).
  - split; [|done]. eapply Forall_impl; [exact H|]. simpl. intros pm Hpm.
    by destruct (decide (PM.vms pm = [])).
Qed.

(** C6 as stated fails: the constructor is given PM 2 before PM 1, each
    with one VM, and the PM to empty is PM 2 although PM 1 has as few VMs
    and the lower identifier. *)
Lemma select_target_not_lowest_id :
  init swapped_pms swapped_vms 1 (15 # 100) 3 tt = Ok swapped_solver ∧
  ∃ pm_empty other,
    select_target (_pms swapped_solver) = Some pm_empty ∧
    other ∈ _pms swapped_solver ∧ PM.vms other ≠ [] ∧
    length (PM.vms other) = length (PM.vms pm_empty) ∧
    (PM.id other < PM.id pm_empty)%Z.
Proof.
  split; [by vm_compute|].
  exists (PM.mk 2 10 10 ["b"] true), (PM.mk 1 10 10 ["a"] true).
  split; [by vm_compute|]. split; [|split; [done|split; [done|]]].
  - unfold swapped_solver. simpl. apply list_elem_of_further, list_elem_of_here.
  - simpl. lia.
Qed.

(** ** The order of the queue *)

Lemma insert_desc_map {A B} (f : A → B) (key : B → Q) (x : A) (l : list A) :
  insert_desc key (f x) (map f l)
  = map f (insert_desc (fun a => key (f a)) x l).
Proof.
  induction l as [|y l IH]; simpl; [done|].
  destruct (Qle_bool (key (f y)) (key (f x))); [done|].
  simpl. by rewrite IH.
Qed.

Lemma sort_desc_map {A B} (f : A → B) (key : B → Q) (l : list A) :
  sort_desc key (map f l) = map f (sort_desc (fun a => key (f a)) l).
Proof.
  induction l as [|x l IH]; simpl; [done|].
  fold (sort_desc key (map f l)). rewrite IH. apply insert_desc_map.
Qed.

Lemma queue_keys (all_vms : list VM.t) (l : list string) keyed :
  rmapM (fun vid => vm ← vm_get all_vms vid; Ok (VM.u_max vm, vid)) l
  = Ok keyed →
  keyed = map (fun vid => (u_max_of all_vms vid, vid)) l.
Proof.
  revert keyed. induction l as [|vid l IH]; intros keyed H; simpl in H.
  - by inversion H.
  - apply bind_Ok_inv in H as (k & Ek & H).
    apply bind_Ok_inv in H as (ks & Eks & H).
    apply bind_Ok_inv in Ek as (vm & Evm & Ek).
    inversion H; inversion Ek; subst. simpl.
    unfold u_max_of. rewrite Evm. f_equal. by apply IH.
Qed.

Lemma order_queue_sort (set_iter : list string → list string)
  (all_vms : list VM.t) (queue_vm_ids queue : list string) :
  order_queue set_iter all_vms queue_vm_ids = Ok queue →
  queue = sort_desc (u_max_of all_vms) (set_iter queue_vm_ids).
Proof.
  unfold order_queue. intros H.
  apply bind_Ok_inv in H as (keyed & Ek & H). inversion H; subst.
  rewrite (queue_keys _ _ _ Ek), sort_desc_map, map_map. simpl.
  by rewrite map_id.
Qed.

(** C7, as the code has it.  The queue the first-fit pass walks through
    has no VM twice, has exactly the VMs collected for migration, and is
    in descending order of [u_max = u_c + u_r]; VMs of equal [u_max] come
    in the order in which the iteration of the deduplicating [set]
    yields them, whatever their identifiers are. *)
Theorem queue_descending_stable (set_iter : list string → list string)
  (all_vms : list VM.t) (queue_vm_ids queue : list string) :
  (∀ l, NoDup (set_iter l)) →
  (∀ l vid, vid ∈ set_iter l ↔ vid ∈ l) →
  order_queue set_iter all_vms queue_vm_ids = Ok queue →
  NoDup queue ∧
  (∀ vid, vid ∈ queue ↔ vid ∈ queue_vm_ids) ∧
  desc (u_max_of all_vms) queue ∧
  (∀ tied : string → bool,
     (∀ x y, tied x = true → tied y = true →
             (u_max_of all_vms x == u_max_of all_vms y)%Q) →
     List.filter tied queue = List.filter tied (set_iter queue_vm_ids)).
Proof.
  intros Hnodup Helem H. apply order_queue_sort in H as ->.
  split; [|split; [|split]].
  - rewrite sort_desc_perm. apply Hnodup.
  - intros vid. rewrite sort_desc_perm. apply Helem.
  - apply sort_desc_sorted.
  - intros tied Htied. apply sort_desc_stable. intros x y _ _. apply Htied.
Qed.

Lemma set_iter_fwd_NoDup (l : list string) : NoDup (set_iter_fwd l).
Proof. apply NoDup_remove_dups. Qed.

Lemma set_iter_fwd_elem (l : list string) (vid : string) :
  vid ∈ set_iter_fwd l ↔ vid ∈ l.
Proof. apply elem_of_remove_dups. Qed.

Lemma set_iter_rev_NoDup (l : list string) : NoDup (set_iter_rev l).
Proof.
  unfold set_iter_rev. rewrite reverse_Permutation. apply NoDup_remove_dups.
Qed.

Lemma set_iter_rev_elem (l : list string) (vid : string) :
  vid ∈ set_iter_rev l ↔ vid ∈ l.
Proof.
  unfold set_iter_rev. rewrite elem_of_reverse. apply elem_of_remove_dups.
Qed.

Lemma queue_descending_stable_witness :
  (∀ l, NoDup (set_iter_rev l)) ∧
  (∀ l vid, vid ∈ set_iter_rev l ↔ vid ∈ l) ∧
  order_queue set_iter_rev tight_vms ["z"; "x"; "z"] = Ok ["z"; "x"] ∧
  NoDup ["z"; "x"] ∧
  (∀ vid, vid ∈ ["z"; "x"] ↔ vid ∈ ["z"; "x"; "z"]) ∧
  desc (u_max_of tight_vms) ["z"; "x"] ∧
  (∀ tied : string → bool,
     (∀ x y, tied x = true → tied y = true →
             (u_max_of tight_vms x == u_max_of tight_vms y)%Q) →
     List.filter tied ["z"; "x"]
     = List.filter tied (set_iter_rev ["z"; "x"; "z"])).
Proof.
  assert (order_queue set_iter_rev tight_vms ["z"; "x"; "z"]
          = Ok ["z"; "x"]) as H by (vm_compute; reflexivity).
  split; [exact set_iter_rev_NoDup|]. split; [exact set_iter_rev_elem|].
  split; [exact H|].
  exact (queue_descending_stable set_iter_rev tight_vms _ _
           set_iter_rev_NoDup set_iter_rev_elem H).
Defined.

(** C7 as stated fails: the VMs ["a"] and ["b"] have the same demand and
    the iteration queues [["b"; "a"]]; with one iteration order of the
    set ["b"] is placed first, with another ["a"], so the identifiers
    decide nothing. *)
Lemma queue_ties_not_by_id :
  (u_max_of (_vms swapped_solver) "a"
   == u_max_of (_vms swapped_solver) "b")%Q ∧
  (∃ pms2,
     sample_others head_sample 2 (sample_ratio swapped_solver)
       (pm_alter (PM.set_vms []) 2 (_pms swapped_solver)) tt ["b"]
     = Ok (pms2, tt, ["b"; "a"])) ∧
  order_queue set_iter_fwd (_vms swapped_solver) ["b"; "a"]
  = Ok ["b"; "a"] ∧
  order_queue set_iter_rev (_vms swapped_solver) ["b"; "a"]
  = Ok ["a"; "b"].
Proof.
  split; [by vm_compute|]. split; [|split; by vm_compute].
  eexists. by vm_compute.
Qed.

(** ** Migration accounting *)

Lemma count_moves_moved (snapshot_vms vms : list VM.t) (count count' : nat) :
  count_moves snapshot_vms vms count = Ok count' →
  count' = count + moved snapshot_vms vms.
Proof.
  unfold moved. revert count.
  induction vms as [|vm vms IH]; intros count H; simpl in H.
  - inversion H; subst. rewrite filter_nil. simpl. lia.
  - apply bind_Ok_inv in H as (old & Eold & H).
    apply IH in H. subst count'. rewrite filter_cons.
    assert (assignment snapshot_vms (VM.id vm) = Some (VM.pm_id old)) as ->.
    { unfold assignment. unfold vm_get in Eold.
      destruct (find _ snapshot_vms) as [v|]; [|done]. by inversion Eold. }
    destruct (decide (Some (VM.pm_id old) ≠ Some (VM.pm_id vm))) as [Hne|Heq].
    + rewrite bool_decide_true by congruence. simpl. lia.
    + rewrite bool_decide_false; [lia|]. intros Hne. apply Heq. congruence.
Qed.

(** ** The calls made by [run] *)

Section Run.
Context {Rng : Type}.
Variable rng_sample : Rng → list string → nat → list string * Rng.
Variable set_iter : list string → list string.

Local Abbreviation iteration := (_single_iteration rng_sample set_iter).
Local Abbreviation Solver := (GammaFFSolver Rng).

(** The two ways an iteration returns. *)
Lemma iteration_cases (s s' : Solver) (b : bool) :
  iteration s = Ok (b, s') →
  G s' = G s ∧ sample_ratio s' = sample_ratio s ∧ max_iter s' = max_iter s ∧
  ((b = false ∧ _pms s' = _pms s ∧ _vms s' = _vms s ∧
    migration_count s' = migration_count s)
   ∨
   (b = true ∧
    ∃ pm_empty pms2 rng' queue1 queue pms3,
      select_target (_pms s) = Some pm_empty ∧
      sample_others rng_sample (PM.id pm_empty) (sample_ratio s)
        (pm_alter (PM.set_vms []) (PM.id pm_empty) (_pms s))
        (rng s) (PM.vms pm_empty) = Ok (pms2, rng', queue1) ∧
      order_queue set_iter (_vms s) queue1 = Ok queue ∧
      place_all queue pms2 (_vms s) (G s) = Ok (true, pms3, _vms s') ∧
      _pms s' = refresh_active pms3 ∧
      migration_count s'
      = migration_count s + moved (_vms s) (_vms s'))).
Proof.
  unfold _single_iteration. intros H.
  destruct (select_target (_pms s)) as [pm_empty|] eqn:Etarget.
  - apply bind_Ok_inv in H as ([[pms2 rng'] queue1] & Esample & H).
    apply bind_Ok_inv in H as (queue & Eorder & H).
    apply bind_Ok_inv in H as ([[placed_all pms3] vms3] & Eplace & H).
    cbv beta iota in H. destruct placed_all.
    + apply bind_Ok_inv in H as (count & Ecount & H).
      inversion H; subst. simpl. do 3 (split; [done|]). right.
      split; [done|].
      exists pm_empty, pms2, rng', queue1, queue, pms3.
      do 5 (split; [done|]). by apply count_moves_moved.
    + inversion H; subst. simpl. do 3 (split; [done|]). by left.
  - inversion H; subst. do 3 (split; [done|]). by left.
Qed.

Lemma final_cons (s : Solver) (c : call Rng) (calls : list (call Rng)) :
  final s (c :: calls) = final (after c) calls.
Proof. unfold final. rewrite last_cons. by destruct (last calls). Qed.

Lemma run_loop_calls (fuel : nat) (improved : bool) (s s' : Solver)
  (b : bool) :
  run_loop rng_sample set_iter fuel improved s = Ok (b, s') →
  ∃ calls,
    run_calls rng_sample set_iter fuel s = Ok calls ∧
    chained rng_sample set_iter s calls ∧
    s' = final s calls ∧
    length calls ≤ fuel ∧
    (∀ i c, calls !! i = Some c → returned c = false →
            S i = length calls) ∧
    (length calls < fuel →
     ∃ c, last calls = Some c ∧ returned c = false) ∧
    b = improved || existsb returned calls.
Proof.
  revert improved s.
  induction fuel as [|fuel IH]; intros improved s H; simpl in H.
  - inversion H; subst. exists []. simpl.
    split; [done|]. split; [done|]. split; [done|]. split; [done|].
    split; [done|]. split; [lia|]. by rewrite orb_false_r.
  - apply bind_Ok_inv in H as ([success s1] & Eiter & H).
    cbv beta iota in H. destruct success.
    + destruct (IH _ _ H) as (calls & Hcalls & Hchain & Hfinal & Hlen
                              & Hstop & Hlast & Hb).
      exists (mkCall s true s1 :: calls). simpl.
      rewrite Eiter. simpl. rewrite Hcalls. simpl.
      split; [done|]. split; [done|].
      split; [by rewrite final_cons|]. split; [lia|].
      split; [|split].
      * intros [|i] c Hi Hc; simpl in Hi.
        -- inversion Hi; subst. done.
        -- f_equal. by apply (Hstop i c).
      * intros Hlt. destruct Hlast as (c & Hc & Hr); [lia|].
        exists c. rewrite last_cons, Hc. done.
      * rewrite Hb. by rewrite orb_true_r.
    + inversion H; subst. exists [mkCall s false s']. simpl.
      rewrite Eiter. simpl.
      split; [done|]. split; [done|]. split; [done|]. split; [lia|].
      split; [|split].
      * intros [|i] c Hi Hc; simpl in Hi; [done|].
        by rewrite lookup_nil in Hi.
      * intros _. by eexists.
      * by rewrite orb_false_r.
Qed.

Lemma chained_migration_count (s : Solver) (calls : list (call Rng)) :
  chained rng_sample set_iter s calls →
  migration_count (final s calls)
  = migration_count s + committed_moves calls ∧
  Forall (fun c => returned c = false →
            migration_count (after c) = migration_count (before c)) calls.
Proof.
  revert s. induction calls as [|c calls IH]; intros s H; simpl in H.
  - unfold final, committed_moves. simpl. split; [lia|constructor].
  - destruct H as (Hbefore & Hiter & Hchain).
    destruct (IH _ Hchain) as [Hcount Hfailed].
    rewrite final_cons, Hcount. unfold committed_moves. simpl.
    apply iteration_cases in Hiter as (_ & _ & _ & Hcase).
    destruct Hcase as [(Hb & _ & _ & Hmc)|(Hb & Hcommit)].
    + rewrite Hb, Hmc. split; [lia|].
      constructor; [by rewrite Hbefore|done].
    + destruct Hcommit as (?&?&?&?&?&?&_&_&_&_&_&Hmc).
      rewrite Hb, Hmc, Hbefore. split; [lia|].
      constructor; [by rewrite Hb|done].
Qed.

(** C5. When [run] returns, it has made a chain of calls of
    [_single_iteration], each starting in the state the previous one
    left, and is in the state the last one left; there are at most
    [max_iter] calls; a call that returned [False] is the last one, and
    if fewer than [max_iter] calls were made the last one returned
    [False]; the value returned is [True] exactly when some call
    returned [True]. *)
Theorem run_stops_at_first_failure (s s' : Solver) (b : bool) :
  run rng_sample set_iter s = Ok (b, s') →
  ∃ calls,
    run_calls rng_sample set_iter (Z.to_nat (max_iter s)) s = Ok calls ∧
    chained rng_sample set_iter s calls ∧
    s' = final s calls ∧
    (Z.of_nat (length calls) ≤ Z.max 0 (max_iter s))%Z ∧
    (∀ i c, calls !! i = Some c → returned c = false →
            S i = length calls) ∧
    ((Z.of_nat (length calls) < max_iter s)%Z →
     ∃ c, last calls = Some c ∧ returned c = false) ∧
    (b = true ↔ ∃ c, c ∈ calls ∧ returned c = true).
Proof.
  unfold run. intros H.
  destruct (run_loop_calls _ _ _ _ _ H)
    as (calls & Hcalls & Hchain & Hfinal & Hlen & Hstop & Hlast & Hb).
  exists calls. do 3 (split; [done|]). split; [lia|].
  split; [done|]. split; [intros Hlt; apply Hlast; lia|].
  rewrite Hb. simpl. unfold is_true. rewrite existsb_exists.
  split.
  - intros (c & Hin & Hc). exists c. by rewrite list_elem_of_In.
  - intros (c & Hin & Hc). exists c. by rewrite <- list_elem_of_In.
Qed.

(** C4. When [run] returns, the migration counter has grown by the sum,
    over the calls of [_single_iteration] that committed, of the number
    of VMs whose [pm_id] at the commit is not the one in that call's
    snapshot; a call that was rolled back leaves the counter as it found
    it.  The constructor sets the counter to [0], so after the first
    [run] the counter is that sum. *)
Theorem migration_count_committed (s s' : Solver) (b : bool) :
  run rng_sample set_iter s = Ok (b, s') →
  ∃ calls,
    run_calls rng_sample set_iter (Z.to_nat (max_iter s)) s = Ok calls ∧
    chained rng_sample set_iter s calls ∧
    s' = final s calls ∧
    migration_count s' = migration_count s + committed_moves calls ∧
    (migration_count s = 0 → migration_count s' = committed_moves calls) ∧
    Forall (fun c => returned c = false →
              migration_count (after c) = migration_count (before c)) calls.
Proof.
  unfold run. intros H.
  destruct (run_loop_calls _ _ _ _ _ H)
    as (calls & Hcalls & Hchain & Hfinal & _).
  destruct (chained_migration_count _ _ Hchain) as [Hcount Hfailed].
  exists calls. do 3 (split; [done|]). rewrite Hfinal.
  split; [done|]. split; [lia|done].
Qed.

End Run.

Lemma init_migration_count {Rng : Type} pms vms G ratio max_iter (r : Rng) s :
  init pms vms G ratio max_iter r = Ok s → migration_count s = 0.
Proof.
  unfold init. intros H. apply bind_Ok_inv in H as (pms' & _ & H).
  by inversion H.
Qed.

Lemma run_stops_at_first_failure_witness :
  run head_sample set_iter_fwd churn_solver = Ok (true, churn_final) ∧
  ∃ calls,
    run_calls head_sample set_iter_fwd (Z.to_nat (max_iter churn_solver))
      churn_solver = Ok calls ∧
    chained head_sample set_iter_fwd churn_solver calls ∧
    churn_final = final churn_solver calls ∧
    (Z.of_nat (length calls) ≤ Z.max 0 (max_iter churn_solver))%Z ∧
    (∀ i c, calls !! i = Some c → returned c = false →
            S i = length calls) ∧
    ((Z.of_nat (length calls) < max_iter churn_solver)%Z →
     ∃ c, last calls = Some c ∧ returned c = false) ∧
    (true = true ↔ ∃ c, c ∈ calls ∧ returned c = true).
Proof.
  assert (run head_sample set_iter_fwd churn_solver = Ok (true, churn_final))
    as H by (vm_compute; reflexivity).
  split; [exact H|].
  exact (run_stops_at_first_failure head_sample set_iter_fwd _ _ _ H).
Defined.

Lemma migration_count_committed_witness :
  run head_sample set_iter_fwd churn_solver = Ok (true, churn_final) ∧
  migration_count churn_final = 1 ∧
  ∃ calls,
    run_calls head_sample set_iter_fwd (Z.to_nat (max_iter churn_solver))
      churn_solver = Ok calls ∧
    chained head_sample set_iter_fwd churn_solver calls ∧
    churn_final = final churn_solver calls ∧
    migration_count churn_final
    = migration_count churn_solver + committed_moves calls ∧
    (migration_count churn_solver = 0 →
     migration_count churn_final = committed_moves calls) ∧
    Forall (fun c => returned c = false →
              migration_count (after c) = migration_count (before c)) calls.
Proof.
  assert (run head_sample set_iter_fwd churn_solver = Ok (true, churn_final))
    as H by (vm_compute; reflexivity).
  split; [exact H|]. split; [reflexivity|].
  exact (migration_count_committed head_sample set_iter_fwd _ _ _ H).
Defined.

(** ** The constructor *)

Section Dict.
Context {A K : Type} `{EqDecision K} (key : A → K).

Lemma alter_first_keys (p : A → bool) (f : A → A) (l : list A) :
  (∀ x, key (f x) = key x) → map key (alter_first p f l) = map key l.
Proof.
  intros Hf. induction l as [|x l IH]; simpl; [done|].
  destruct (p x); simpl; [by rewrite Hf|by rewrite IH].
Qed.

Lemma dict_set_fresh (x : A) (d : list A) :
  key x ∉ map key d → dict_set key x d = d ++ [x].
Proof.
  induction d as [|y d IH]; simpl; [done|].
  rewrite not_elem_of_cons. intros [Hne Hnotin].
  rewrite bool_decide_false by done. by rewrite IH.
Qed.

Lemma dict_set_keys (x : A) (d : list A) (k : K) :
  k ∈ map key (dict_set key x d) ↔ k = key x ∨ k ∈ map key d.
Proof.
  induction d as [|y d IH]; simpl.
  - rewrite elem_of_cons. done.
  - case_bool_decide as Hy; simpl; rewrite !elem_of_cons.
    + rewrite Hy. tauto.
    + rewrite IH. tauto.
Qed.

Lemma dict_fold_keys (xs acc : list A) (k : K) :
  k ∈ map key (fold_left (fun d x => dict_set key x d) xs acc) ↔
  k ∈ map key acc ∨ k ∈ map key xs.
Proof.
  revert acc. induction xs as [|x xs IH]; intros acc; simpl.
  - rewrite elem_of_nil. tauto.
  - rewrite IH, dict_set_keys, elem_of_cons. tauto.
Qed.

Lemma dict_of_keys (xs : list A) (k : K) :
  k ∈ map key (dict_of key xs) ↔ k ∈ map key xs.
Proof.
  unfold dict_of. rewrite dict_fold_keys. simpl. rewrite elem_of_nil. tauto.
Qed.


End Dict.

Lemma pm_alter_ids (f : PM.t → PM.t) (h : Z) (pms : list PM.t) :
  (∀ pm, PM.id (f pm) = PM.id pm) →
  map PM.id (pm_alter f h pms) = map PM.id pms.
Proof. apply alter_first_keys. Qed.

Lemma refresh_active_ids (pms : list PM.t) :
  map PM.id (refresh_active pms) = map PM.id pms.
Proof. unfold refresh_active. rewrite map_map. by apply map_ext. Qed.

Lemma sync_append_Ok (vms : list VM.t) (pms pms' : list PM.t) :
  sync_append vms pms = Ok pms' →
  map PM.id pms' = map PM.id pms ∧
  Forall (fun vm => ∀ h, VM.pm_id vm = Some h → h ∈ map PM.id pms) vms.
Proof.
  revert pms. induction vms as [|vm vms IH]; intros pms H; simpl in H.
  - inversion H; subst. split; [done|constructor].
  - destruct (VM.pm_id vm) as [h|] eqn:Eh.
    + case_bool_decide as Hh; [|done].
      apply IH in H as [Hids Hall]. rewrite pm_alter_ids in Hids by done.
      split; [done|]. constructor.
      * intros h' Hh'. rewrite Eh in Hh'. by inversion Hh'; subst.
      * eapply Forall_impl; [exact Hall|]. simpl. intros vm' Hvm' h' Hh'.
        specialize (Hvm' h' Hh'). by rewrite pm_alter_ids in Hvm'.
    + apply IH in H as [Hids Hall]. split; [done|].
      constructor; [intros h Hh; by rewrite Eh in Hh|done].
Qed.

Lemma sync_append_Raise (vms : list VM.t) (pms : list PM.t) (e : exn) :
  sync_append vms pms = Raise e →
  ∃ vm h, vm ∈ vms ∧ VM.pm_id vm = Some h ∧ (h ∉ map PM.id pms) ∧
          e = ValueError_no_pm (VM.id vm) h.
Proof.
  revert pms. induction vms as [|vm vms IH]; intros pms H; simpl in H.
  - done.
  - destruct (VM.pm_id vm) as [h|] eqn:Eh.
    + case_bool_decide as Hh.
      * apply IH in H as (vm' & h' & Hin & Hpm & Hnot & He).
        exists vm', h'. rewrite pm_alter_ids in Hnot by done.
        split; [by right|done].
      * inversion H; subst. exists vm, h. split; [by left|done].
    + apply IH in H as (vm' & h' & Hin & Hpm & Hnot & He).
      exists vm', h'. split; [by right|done].
Qed.

Lemma dict_set_NoDup {A K} `{EqDecision K} (key : A → K) (x : A)
  (d : list A) :
  NoDup (map key d) → NoDup (map key (dict_set key x d)).
Proof.
  induction d as [|y d IH]; simpl; [intros _; apply NoDup_singleton|].
  rewrite NoDup_cons. intros [Hy Hd]. case_bool_decide as Hxy; simpl.
  - rewrite <- Hxy. by apply NoDup_cons.
  - apply NoDup_cons. split; [|by apply IH].
    rewrite dict_set_keys. intros [?|?]; [congruence|done].
Qed.

Lemma dict_of_NoDup_keys {A K} `{EqDecision K} (key : A → K) (xs : list A) :
  NoDup (map key (dict_of key xs)).
Proof.
  unfold dict_of.
  assert (NoDup (map key (@nil A))) as Hacc by constructor.
  revert Hacc. generalize (@nil A).
  induction xs as [|x xs IH]; intros acc Hacc; simpl; [done|].
  by apply IH, dict_set_NoDup.
Qed.

(** With distinct identifiers, the mutation of [_pms[h]] touches the one
    PM whose identifier is [h]. *)
Lemma pm_alter_NoDup (f : PM.t → PM.t) (h : Z) (pms : list PM.t) :
  NoDup (map PM.id pms) →
  pm_alter f h pms
  = map (fun pm => if bool_decide (PM.id pm = h) then f pm else pm) pms.
Proof.
  unfold pm_alter. induction pms as [|pm pms IH]; simpl; [done|].
  rewrite NoDup_cons. intros [Hpm Hpms]. case_bool_decide as Hh.
  - f_equal. clear IH. induction pms as [|pm' pms IH]; simpl; [done|].
    simpl in Hpm. apply not_elem_of_cons in Hpm as [Hne Hpm].
    apply NoDup_cons in Hpms as [_ Hpms].
    rewrite bool_decide_false by congruence. f_equal. by apply IH.
  - f_equal. by apply IH.
Qed.

Lemma sync_append_lists (vms : list VM.t) (pms pms' : list PM.t) :
  NoDup (map PM.id pms) →
  sync_append vms pms = Ok pms' →
  Forall2 (fun pm pm' =>
             PM.id pm' = PM.id pm ∧
             PM.vms pm'
             = PM.vms pm
               ++ map VM.id
                    (filter (fun vm => VM.pm_id vm = Some (PM.id pm)) vms))
          pms pms'.
Proof.
  revert pms. induction vms as [|vm vms IH]; intros pms Hnd H; simpl in H.
  - inversion H; subst. apply Forall2_same_length_lookup. split; [done|].
    intros i pm pm' Hpm Hpm'. rewrite Hpm in Hpm'. inversion Hpm'; subst.
    by rewrite filter_nil, app_nil_r.
  - destruct (VM.pm_id vm) as [h|] eqn:Eh.
    + case_bool_decide as Hh; [|done].
      apply IH in H; [|by rewrite pm_alter_ids].
      rewrite pm_alter_NoDup in H by done.
      apply Forall2_fmap_l in H.
      eapply Forall2_impl; [exact H|]. simpl. intros pm pm' [Hid Hvms].
      rewrite filter_cons, Eh. case_bool_decide as Hpm; simpl in *.
      * rewrite decide_True by congruence.
        split; [done|]. by rewrite Hvms, <- app_assoc.
      * rewrite decide_False by congruence. done.
    + apply IH in H; [|done].
      eapply Forall2_impl; [exact H|]. simpl. intros pm pm' [Hid Hvms].
      split; [done|]. by rewrite filter_cons, Eh, decide_False.
Qed.



(** ** The emptied PM takes part in the scan *)

Lemma set_iter_singleton (set_iter : list string → list string)
  (vid : string) :
  (∀ l, NoDup (set_iter l)) →
  (∀ l x, x ∈ set_iter l ↔ x ∈ l) →
  set_iter [vid] = [vid].
Proof.
  intros Hnd Helem. specialize (Hnd [vid]).
  assert (∀ x, x ∈ set_iter [vid] ↔ x = vid) as Hin.
  { intros x. rewrite Helem. apply list_elem_of_singleton. }
  destruct (set_iter [vid]) as [|x l].
  - exfalso. apply (elem_of_nil vid). by apply Hin.
  - assert (x = vid) as -> by (apply Hin; left).
    destruct l as [|y l]; [done|].
    assert (y = vid) as -> by (apply Hin; right; left).
    apply NoDup_cons in Hnd as [Hnotin _]. exfalso. apply Hnotin. left.
Qed.

(** C10. The scan of the first-fit pass includes the PM that was just
    emptied.  For one PM holding one VM the constructor succeeds, the
    only iteration empties the PM, puts the VM back on it and commits;
    [run] returns [True], the solver is as it was and the migration
    counter is [0]. *)
Theorem drained_target_takes_back {Rng : Type}
  (rng_sample : Rng → list string → nat → list string * Rng)
  (set_iter : list string → list string) (r : Rng) :
  (∀ l, NoDup (set_iter l)) →
  (∀ l x, x ∈ set_iter l ↔ x ∈ l) →
  init lone_pms lone_vms 1 (15 # 100) 1 r = Ok (lone_solver r) ∧
  select_target (_pms (lone_solver r)) = Some (PM.mk 1 10 10 ["a"] true) ∧
  run_calls rng_sample set_iter 1 (lone_solver r)
  = Ok [mkCall (lone_solver r) true (lone_solver r)] ∧
  run rng_sample set_iter (lone_solver r) = Ok (true, lone_solver r) ∧
  migration_count (lone_solver r) = 0.
Proof.
  intros Hnd Helem.
  pose proof (set_iter_singleton set_iter "a" Hnd Helem) as Hset.
  assert (_single_iteration rng_sample set_iter (lone_solver r)
          = Ok (true, lone_solver r)) as Hiter.
  { unfold _single_iteration, order_queue. vm_compute.
    vm_compute in Hset. rewrite Hset. reflexivity. }
  split; [by vm_compute|]. split; [by vm_compute|].
  split; [|split; [|done]].
  - simpl. rewrite Hiter. reflexivity.
  - unfold run. simpl. rewrite Hiter. reflexivity.
Qed.

Lemma drained_target_takes_back_witness :
  (∀ l, NoDup (set_iter_fwd l)) ∧
  (∀ l x, x ∈ set_iter_fwd l ↔ x ∈ l) ∧
  init lone_pms lone_vms 1 (15 # 100) 1 tt = Ok (lone_solver tt) ∧
  select_target (_pms (lone_solver tt)) = Some (PM.mk 1 10 10 ["a"] true) ∧
  run_calls head_sample set_iter_fwd 1 (lone_solver tt)
  = Ok [mkCall (lone_solver tt) true (lone_solver tt)] ∧
  run head_sample set_iter_fwd (lone_solver tt) = Ok (true, lone_solver tt) ∧
  migration_count (lone_solver tt) = 0.
Proof.
  split; [exact set_iter_fwd_NoDup|]. split; [exact set_iter_fwd_elem|].
  exact (drained_target_takes_back head_sample set_iter_fwd tt
           set_iter_fwd_NoDup set_iter_fwd_elem).
Defined.

(** ** Feasibility *)

Section Feasibility.
Local Open Scope Q_scope.




Lemma vm_get_Ok (all_vms : list VM.t) (vid : string) (vm : VM.t) :
  vm_get all_vms vid = Ok vm → vm ∈ all_vms ∧ VM.id vm = vid.
Proof.
  unfold vm_get. destruct (find _ all_vms) as [v|] eqn:E; [|done].
  intros H. inversion H; subst. apply find_some in E as [Hin Hid].
  split; [by apply list_elem_of_In|]. by apply bool_decide_eq_true in Hid.
Qed.




End Feasibility.

Lemma same_demand_refl (vm : VM.t) : same_demand vm vm.
Proof. by repeat split. Qed.







Lemma pm_alter_shrunk (h : Z) (pms : list PM.t) :
  Forall2 shrunk pms (pm_alter (PM.set_vms []) h pms).
Proof.
  unfold pm_alter. induction pms as [|pm pms IH]; simpl; [constructor|].
  destruct (bool_decide (PM.id pm = h)).
  - constructor.
    + split; [done|]. split; [done|]. apply sublist_nil_l.
    + apply Forall2_same_length_lookup. split; [done|].
      intros i x y Hx Hy. rewrite Hx in Hy. inversion Hy; subst.
      by repeat split.
  - constructor; [by repeat split|done].
Qed.



Section Soundness.
Context {Rng : Type}.
Variable rng_sample : Rng → list string → nat → list string * Rng.
Variable set_iter : list string → list string.

Local Abbreviation Solver := (GammaFFSolver Rng).


Lemma sample_others_shrunk (target : Z) (ratio : Q) (pms pms' : list PM.t)
  (r r' : Rng) (queue queue' : list string) :
  sample_others rng_sample target ratio pms r queue = Ok (pms', r', queue') →
  Forall2 shrunk pms pms'.
Proof.
  revert pms' r r' queue queue'.
  induction pms as [|pm pms IH]; intros pms' r r' queue queue' H;
    simpl in H.
  - inversion H; subst. constructor.
  - destruct (bool_decide (PM.id pm = target) || negb (nonempty (PM.vms pm))).
    + apply bind_Ok_inv in H as ([[rest' r1] q1] & Erest & H).
      inversion H; subst. constructor; [by repeat split|].
      by eapply IH.
    + apply bind_Ok_inv in H as ([sampled r1] & Esample & H).
      apply bind_Ok_inv in H as ([[rest' r2] q2] & Erest & H).
      inversion H; subst. constructor; [|by eapply IH].
      split; [done|]. split; [done|]. simpl. apply sublist_filter.
Qed.





End Soundness.


(** ** No exception in well-formed states *)

Lemma vm_get_known (all_vms : list VM.t) (vid : string) :
  vid ∈ map VM.id all_vms → ∃ vm, vm_get all_vms vid = Ok vm.
Proof.
  unfold vm_get. induction all_vms as [|v l IH]; simpl.
  - by rewrite elem_of_nil.
  - rewrite elem_of_cons. intros Hin. case_bool_decide as Hv; [by eexists|].
    destruct Hin as [->|Hin]; [done|]. by apply IH.
Qed.

Lemma residents_known (all_vms : list VM.t) (l : list string) :
  Forall (fun vid => vid ∈ map VM.id all_vms) l →
  ∃ r, rmapM (vm_get all_vms) l = Ok r.
Proof.
  induction 1 as [|vid l Hvid _ (r & Hr)]; [by exists []|].
  destruct (vm_get_known _ _ Hvid) as (vm & Hvm).
  exists (vm :: r). simpl. by rewrite Hvm; simpl; rewrite Hr.
Qed.

Lemma can_place_returns (vm : VM.t) (pm : PM.t) (all_vms : list VM.t)
  (G : Z) :
  known all_vms pm → ∃ b, can_place_vm_on_pm vm pm all_vms G = Ok b.
Proof.
  intros Hpm. destruct (residents_known _ _ Hpm) as (r & Hr).
  unfold can_place_vm_on_pm. rewrite Hr. simpl.
  destruct (Qgt_bool _ _); [by eexists|].
  destruct (Qgt_bool _ _); by eexists.
Qed.

Lemma first_fit_returns (vm : VM.t) (pms : list PM.t) (all_vms : list VM.t)
  (G : Z) :
  VM.id vm ∈ map VM.id all_vms →
  Forall (known all_vms) pms →
  ∃ r, first_fit vm pms all_vms G = Ok r ∧
       ∀ h pms', r = Some (h, pms') → Forall (known all_vms) pms'.
Proof.
  intros Hvm. induction 1 as [|pm pms Hpm Hpms (r & Hr & Hknown)]; simpl.
  - by exists None.
  - destruct (can_place_returns vm pm all_vms G Hpm) as ([|] & Hb);
      rewrite Hb; simpl.
    + eexists. split; [done|]. intros h pms' H. inversion H; subst.
      constructor; [|done]. unfold known. simpl.
      apply Forall_app. split; [done|]. by constructor.
    + rewrite Hr. simpl. eexists. split; [done|].
      intros h pms' H. destruct r as [[h' rest']|]; [|done].
      inversion H; subst. constructor; [done|]. by eapply Hknown.
Qed.

Lemma vm_alter_ids (f : VM.t → VM.t) (vid : string) (all_vms : list VM.t) :
  (∀ vm, VM.id (f vm) = VM.id vm) →
  map VM.id (vm_alter f vid all_vms) = map VM.id all_vms.
Proof. apply alter_first_keys. Qed.

Lemma place_all_returns (queue : list string) (pms : list PM.t)
  (all_vms : list VM.t) (G : Z) :
  Forall (fun vid => vid ∈ map VM.id all_vms) queue →
  Forall (known all_vms) pms →
  ∃ b pms' vms',
    place_all queue pms all_vms G = Ok (b, pms', vms') ∧
    map VM.id vms' = map VM.id all_vms ∧
    Forall (known vms') pms'.
Proof.
  intros Hq. revert pms all_vms Hq.
  induction queue as [|vid queue IH]; intros pms all_vms Hq Hpms; simpl.
  - by exists true, pms, all_vms.
  - apply Forall_cons in Hq as [Hvid Hq].
    destruct (vm_get_known _ _ Hvid) as (vm & Hvm). rewrite Hvm. simpl.
    pose proof (vm_get_Ok _ _ _ Hvm) as [_ Hid].
    destruct (first_fit_returns vm pms all_vms G) as (r & Hr & Hknown);
      [by rewrite Hid|done|].
    rewrite Hr. simpl. destruct r as [[h pms1]|].
    + set (vms1 := vm_alter (VM.set_pm_id (Some h)) vid all_vms).
      assert (map VM.id vms1 = map VM.id all_vms) as Hids
        by by apply vm_alter_ids.
      destruct (IH pms1 vms1) as (b & pms' & vms' & Hplace & Hids' & Hk).
      * by rewrite Hids.
      * unfold known. rewrite Hids. by eapply Hknown.
      * exists b, pms', vms'. split; [done|]. split; [congruence|done].
    + by exists false, pms, all_vms.
Qed.

Lemma count_moves_returns (snapshot_vms vms : list VM.t) (count : nat) :
  Forall (fun vm => VM.id vm ∈ map VM.id snapshot_vms) vms →
  ∃ count', count_moves snapshot_vms vms count = Ok count'.
Proof.
  intros H. revert count.
  induction H as [|vm vms Hvm _ IH]; intros count; simpl; [by eexists|].
  destruct (vm_get_known _ _ Hvm) as (old & Hold). rewrite Hold. simpl.
  apply IH.
Qed.

Lemma py_int_le (x : Q) (n : Z) :
  (x <= inject_Z n)%Q → (py_int x ≤ Z.max 0 n)%Z.
Proof.
  intros Hx. unfold py_int. destruct (Qle_bool 0 x) eqn:E.
  - pose proof (Qfloor_resp_le _ _ Hx) as H. rewrite Qfloor_Z in H. lia.
  - assert (x < 0)%Q as Hneg.
    { destruct (Qlt_le_dec x 0) as [|Hle]; [done|].
      apply Qle_bool_iff in Hle. congruence. }
    assert (Qceiling x ≤ 0)%Z; [|lia].
    pose proof (Qceiling_resp_le x 0 (Qlt_le_weak _ _ Hneg)) as H.
    exact H.
Qed.

Lemma select_target_elem (pms : list PM.t) (pm_empty : PM.t) :
  select_target pms = Some pm_empty → pm_empty ∈ pms.
Proof.
  intros H.
  pose proof (py_min_filter (fun pm => length (PM.vms pm))
                (fun pm => PM.vms pm ≠ []) pms) as Hmin.
  fold (select_target pms) in Hmin. rewrite H in Hmin.
  destruct Hmin as (l1 & l2 & -> & _).
  apply elem_of_app. right. left.
Qed.

Lemma pm_alter_known (all_vms : list VM.t) (h : Z) (pms : list PM.t) :
  Forall (known all_vms) pms →
  Forall (known all_vms) (pm_alter (PM.set_vms []) h pms).
Proof.
  unfold pm_alter. induction 1 as [|pm pms Hpm Hpms IH]; simpl; [done|].
  destruct (bool_decide (PM.id pm = h)); constructor; try done.
  constructor.
Qed.

Lemma queue_keys_returns (all_vms : list VM.t) (l : list string) :
  Forall (fun vid => vid ∈ map VM.id all_vms) l →
  ∃ keyed,
    rmapM (fun vid => vm ← vm_get all_vms vid; Ok (VM.u_max vm, vid)) l
    = Ok keyed.
Proof.
  induction 1 as [|vid l Hvid _ (keyed & Hk)]; [by exists []|].
  destruct (vm_get_known _ _ Hvid) as (vm & Hvm).
  eexists. simpl. rewrite Hvm. simpl. rewrite Hk. simpl. done.
Qed.

Section Returns.
Context {Rng : Type}.
Variable rng_sample : Rng → list string → nat → list string * Rng.
Variable set_iter : list string → list string.
Hypothesis sample_lawful : lawful_sample rng_sample.
Hypothesis set_iter_lawful : lawful_set_iter set_iter.

Local Abbreviation Solver := (GammaFFSolver Rng).

Lemma sample_others_returns (all_vms : list VM.t) (target : Z) (ratio : Q)
  (pms : list PM.t) (r : Rng) (queue : list string) :
  (ratio <= 1)%Q →
  Forall (known all_vms) pms →
  Forall (fun vid => vid ∈ map VM.id all_vms) queue →
  ∃ pms' r' queue',
    sample_others rng_sample target ratio pms r queue
    = Ok (pms', r', queue') ∧
    Forall (known all_vms) pms' ∧
    Forall (fun vid => vid ∈ map VM.id all_vms) queue'.
Proof.
  intros Hratio Hpms. revert r queue.
  induction Hpms as [|pm pms Hpm Hpms IH]; intros r queue Hq; simpl.
  - by exists [], r, queue.
  - destruct (bool_decide (PM.id pm = target) || negb (nonempty (PM.vms pm)))
      eqn:Eskip.
    + destruct (IH r queue Hq) as (pms' & r' & queue' & -> & Hk & Hq').
      simpl. exists (pm :: pms'), r', queue'. split; [done|].
      split; [by constructor|done].
    + apply orb_false_iff in Eskip as [_ Hne].
      apply negb_false_iff in Hne.
      set (n := length (PM.vms pm)).
      assert (0 < n) as Hn.
      { unfold n. destruct (PM.vms pm); [done|simpl; lia]. }
      set (k := Z.max 1 (py_int (inject_Z (Z.of_nat n) * ratio)%Q)).
      assert (0 ≤ k ≤ Z.of_nat n)%Z as Hk.
      { assert (py_int (inject_Z (Z.of_nat n) * ratio) ≤ Z.max 0 (Z.of_nat n))%Z
          as Hint; [|unfold k; lia].
        apply py_int_le.
        assert (0 <= inject_Z (Z.of_nat n))%Q as H0.
        { rewrite <- (Zle_Qle 0). lia. }
        nra. }
      unfold sample. rewrite bool_decide_true by done. simpl.
      pose proof (sample_lawful r (PM.vms pm) (Z.to_nat k)) as Hsub.
      destruct (rng_sample r (PM.vms pm) (Z.to_nat k)) as [sampled r1].
      simpl in Hsub. specialize (Hsub ltac:(unfold n in Hk; lia)).
      destruct (IH r1 (queue ++ sampled)) as (pms' & r' & queue' & -> & Hk' & Hq').
      { apply Forall_app. split; [done|]. apply Forall_forall.
        intros vid Hvid. unfold known in Hpm. rewrite Forall_forall in Hpm.
        apply Hpm. by apply Hsub. }
      simpl. eexists _, r', queue'. split; [done|]. split; [|done].
      constructor; [|done]. unfold known. simpl. apply Forall_forall.
      intros vid Hvid. apply list_elem_of_filter in Hvid as [_ Hvid].
      unfold known in Hpm. rewrite Forall_forall in Hpm. by apply Hpm.
Qed.

Lemma order_queue_returns (all_vms : list VM.t) (queue1 : list string) :
  Forall (fun vid => vid ∈ map VM.id all_vms) queue1 →
  ∃ queue,
    order_queue set_iter all_vms queue1 = Ok queue ∧
    Forall (fun vid => vid ∈ map VM.id all_vms) queue.
Proof.
  intros Hq.
  assert (Forall (fun vid => vid ∈ map VM.id all_vms) (set_iter queue1))
    as Hset.
  { apply Forall_forall. intros vid Hvid. rewrite Forall_forall in Hq.
    apply Hq. by apply set_iter_lawful. }
  destruct (queue_keys_returns _ _ Hset) as (keyed & Hkeyed).
  assert (∃ queue, order_queue set_iter all_vms queue1 = Ok queue)
    as (queue & Hqueue).
  { unfold order_queue. rewrite Hkeyed. simpl. by eexists. }
  exists queue. split; [done|].
  apply order_queue_sort in Hqueue as ->. by rewrite sort_desc_perm.
Qed.

(** In a well-formed state an iteration raises nothing and leaves a
    well-formed state. *)
Lemma iteration_returns (s : Solver) :
  well_formed s →
  ∃ b s', _single_iteration rng_sample set_iter s = Ok (b, s') ∧
          well_formed s'.
Proof.
  intros [Hknown Hratio]. unfold _single_iteration.
  destruct (select_target (_pms s)) as [pm_empty|] eqn:Etarget;
    [|by exists false, s].
  pose proof (select_target_elem _ _ Etarget) as Hin.
  assert (Forall (fun vid => vid ∈ map VM.id (_vms s)) (PM.vms pm_empty))
    as Hq0.
  { rewrite Forall_forall in Hknown. by apply Hknown. }
  destruct (sample_others_returns (_vms s) (PM.id pm_empty) (sample_ratio s)
              (pm_alter (PM.set_vms []) (PM.id pm_empty) (_pms s))
              (rng s) (PM.vms pm_empty) Hratio
              (pm_alter_known _ _ _ Hknown) Hq0)
    as (pms2 & rng' & queue1 & -> & Hknown2 & Hq1).
  simpl.
  destruct (order_queue_returns _ _ Hq1) as (queue & -> & Hq). simpl.
  destruct (place_all_returns queue pms2 (_vms s) (G s) Hq Hknown2)
    as (placed_all & pms3 & vms3 & -> & Hids & Hknown3).
  simpl. destruct placed_all.
  - destruct (count_moves_returns (_vms s) vms3 (migration_count s))
      as (count & ->).
    { apply Forall_forall. intros vm Hvm. rewrite <- Hids.
      by apply list_elem_of_fmap_2. }
    simpl. eexists _, _. split; [done|]. split; [|done]. simpl.
    unfold refresh_active. apply Forall_fmap.
    eapply Forall_impl; [exact Hknown3|]. done.
  - eexists _, _. split; [done|]. by split.
Qed.

(** [run] returns in every well-formed state. *)
Lemma run_returns (s : Solver) :
  well_formed s →
  ∃ b s', run rng_sample set_iter s = Ok (b, s') ∧ well_formed s'.
Proof.
  unfold run. generalize (Z.to_nat (max_iter s)) false.
  intros fuel. revert s.
  induction fuel as [|fuel IH]; intros s improved Hs; simpl.
  - by exists improved, s.
  - destruct (iteration_returns s Hs) as ([|] & s1 & -> & Hs1); simpl.
    + by apply IH.
    + by exists improved, s1.
Qed.

End Returns.

(** ** The constructor returns well-formed states *)

Lemma alter_first_Forall {A} (P : A → Prop) (p : A → bool) (f : A → A)
  (l : list A) :
  (∀ x, p x = true → P x → P (f x)) →
  Forall P l → Forall P (alter_first p f l).
Proof.
  intros Hf. induction 1 as [|x l Hx Hl IH]; simpl; [done|].
  destruct (p x) eqn:E; constructor; auto.
Qed.

Lemma sync_append_known (all_vms vms : list VM.t) (pms pms' : list PM.t) :
  Forall (fun vm => VM.id vm ∈ map VM.id all_vms) vms →
  Forall (known all_vms) pms →
  sync_append vms pms = Ok pms' →
  Forall (known all_vms) pms'.
Proof.
  intros Hvms. revert pms.
  induction Hvms as [|vm vms Hvm _ IH]; intros pms Hpms H; simpl in H.
  - by inversion H; subst.
  - destruct (VM.pm_id vm) as [h|]; [|by apply (IH pms)].
    case_bool_decide; [|done]. apply (IH _) in H; [done|].
    apply alter_first_Forall; [|done].
    intros pm _ Hpm. unfold known. simpl.
    apply Forall_app. split; [done|]. by constructor.
Qed.

Lemma init_well_formed {Rng : Type} (pms : list PM.t) (vms : list VM.t)
  (G : Z) (sample_ratio : Q) (max_iter : Z) (rng : Rng)
  (s : GammaFFSolver Rng) :
  (sample_ratio <= 1)%Q →
  init pms vms G sample_ratio max_iter rng = Ok s →
  well_formed s.
Proof.
  unfold init, _sync_vm_pm_lists. intros Hratio H.
  apply bind_Ok_inv in H as (pms2 & Hsync & H).
  apply bind_Ok_inv in Hsync as (pms1 & Hsync & Hrefresh).
  inversion Hrefresh; inversion H; subst. split; [|done]. simpl.
  apply sync_append_known with (all_vms := dict_of VM.id vms) in Hsync.
  - unfold refresh_active. apply Forall_fmap.
    eapply Forall_impl; [exact Hsync|]. done.
  - apply Forall_forall. intros vm Hvm. by apply list_elem_of_fmap_2.
  - apply Forall_fmap, Forall_forall. intros pm _. constructor.
Qed.

Lemma head_sample_lawful : lawful_sample head_sample.
Proof.
  intros r population k _ vid Hvid. simpl in Hvid.
  eapply elem_of_sublist; [done|apply sublist_take].
Qed.

Lemma set_iter_fwd_lawful : lawful_set_iter set_iter_fwd.
Proof. intros l vid. apply set_iter_fwd_elem. Qed.

Lemma set_iter_rev_lawful : lawful_set_iter set_iter_rev.
Proof. intros l vid. apply set_iter_rev_elem. Qed.

(** * Further properties of the code *)

(** ** The evaluator at the ends of the budget range *)



(** X2. A negative budget [G] is not rejected: the slice [radii[:G]]
    leaves out the [-G] smallest radii, so for [n] VMs the usage is the
    one of the budget [n + G], or of the budget [0] when that is
    negative. *)
Theorem robust_cpu_usage_negative_budget (vms : list VM.t) (G : Z) :
  (G < 0)%Z →
  (robust_cpu_usage vms G
   == robust_cpu_usage vms (Z.max 0 (Z.of_nat (length vms) + G)))%Q.
Proof.
  intros HG. rewrite !robust_cpu_usage_eq, !slice_to_take.
  rewrite (slice_len_nonneg (Z.max 0 _)) by lia.
  unfold slice_len. destruct (Z.leb_spec 0 G) as [|_]; [lia|].
  rewrite sort_desc_length, length_map.
  replace (Z.to_nat (Z.max 0 (Z.of_nat (length vms) + G)))
    with (Z.to_nat (Z.of_nat (length vms) + G)) by lia.
  reflexivity.
Qed.

Lemma robust_cpu_usage_negative_budget_witness :
  (-1 < 0)%Z ∧
  (robust_cpu_usage two_vms (-1)
   == robust_cpu_usage two_vms (Z.max 0 (Z.of_nat (length two_vms) + -1)))%Q.
Proof.
  assert (-1 < 0)%Z as H by lia.
  split; [exact H|]. exact (robust_cpu_usage_negative_budget two_vms (-1) H).
Defined.

(** ** The feasibility test and the audit *)




Lemma rmapM_snoc {A B} (f : A → result B) (l : list A) (x : A) (y : B) :
  f x = Ok y →
  rmapM f (l ++ [x])
  = match rmapM f l with
    | Ok r => Ok (r ++ [y])
    | Raise e => Raise e
    end.
Proof.
  intros Hx. induction l as [|a l IH]; simpl.
  - by rewrite Hx.
  - destruct (f a) as [b|e]; simpl; [|done]. rewrite IH.
    by destruct (rmapM f l).
Qed.

(** X4. The test before a placement and the audit after it compute
    the same thing: for a VM stored under its identifier,
    [can_place_vm_on_pm] answers [True] exactly when the per-PM step of
    [check_feasibility] finds no violation on the PM with the VM
    appended, answers [False] exactly when it finds one, and raises the
    [KeyError] the audit would raise. *)
Theorem can_place_agrees_with_check (vm : VM.t) (pm : PM.t)
  (all_vms : list VM.t) (G : Z) :
  vm_get all_vms (VM.id vm) = Ok vm →
  match can_place_vm_on_pm vm pm all_vms G with
  | Ok b =>
      ∃ errors,
        check_pm all_vms G (PM.set_vms (PM.vms pm ++ [VM.id vm]) pm)
        = Ok errors ∧
        (b = true ↔ errors = [])
  | Raise e =>
      check_pm all_vms G (PM.set_vms (PM.vms pm ++ [VM.id vm]) pm) = Raise e
  end.
Proof.
  intros Hvm. unfold can_place_vm_on_pm, check_pm. simpl.
  rewrite (rmapM_snoc _ _ _ _ Hvm).
  destruct (rmapM (vm_get all_vms) (PM.vms pm)) as [current|e]; simpl;
    [|done].
  destruct (Qgt_bool (robust_cpu_usage (current ++ [vm]) G) _).
  - eexists. split; [done|]. simpl. split; done.
  - destruct (Qgt_bool (Qsum (map VM.mem (current ++ [vm]))) _).
    + eexists. split; [done|]. simpl. split; done.
    + eexists. split; [done|]. simpl. split; done.
Qed.

Lemma can_place_agrees_with_check_witness :
  vm_get churn_vms "z" = Ok (VM.mk "z" 6 0 1 (Some 2%Z)) ∧
  can_place_vm_on_pm (VM.mk "z" 6 0 1 (Some 2%Z))
    (PM.mk 1 10 100 ["y"; "x"] true) churn_vms 1 = Ok false ∧
  ∃ errors,
    check_pm churn_vms 1 (PM.mk 1 10 100 ["y"; "x"; "z"] true) = Ok errors ∧
    (false = true ↔ errors = []).
Proof.
  assert (vm_get churn_vms (VM.id (VM.mk "z" 6 0 1 (Some 2%Z)))
          = Ok (VM.mk "z" 6 0 1 (Some 2%Z))) as H by (vm_compute; reflexivity).
  pose proof (can_place_agrees_with_check (VM.mk "z" 6 0 1 (Some 2%Z))
                (PM.mk 1 10 100 ["y"; "x"] true) churn_vms 1 H) as Hagree.
  assert (can_place_vm_on_pm (VM.mk "z" 6 0 1 (Some 2%Z))
            (PM.mk 1 10 100 ["y"; "x"] true) churn_vms 1 = Ok false) as Hno
    by (vm_compute; reflexivity).
  rewrite Hno in Hagree.
  split; [exact H|]. split; [exact Hno|]. exact Hagree.
Defined.

Lemma elem_of_concat {A} (x : A) (ls : list (list A)) :
  x ∈ concat ls ↔ ∃ l, x ∈ l ∧ l ∈ ls.
Proof.
  induction ls as [|l ls IH]; simpl.
  - split; [by intros ?%elem_of_nil|]. by intros (l & _ & ?%elem_of_nil).
  - rewrite elem_of_app, IH. split.
    + intros [Hx|(l' & Hx & Hl')]; [exists l|exists l'];
        (split; [done|]); [by left|by right].
    + intros (l' & Hx & Hl'). apply elem_of_cons in Hl' as [->|Hl'];
        [by left|right; by exists l'].
Qed.

Section Audit.
Context {Rng : Type}.



Lemma residents_raise (all_vms : list VM.t) (l : list string) :
  match rmapM (vm_get all_vms) l with
  | Ok _ => Forall (fun vid => vid ∈ map VM.id all_vms) l
  | Raise e => ∃ vid, vid ∈ l ∧ (vid ∉ map VM.id all_vms) ∧ e = KeyError_vm vid
  end.
Proof.
  induction l as [|vid l IH]; simpl; [constructor|].
  destruct (vm_get all_vms vid) as [vm|e] eqn:Evm; simpl.
  - apply vm_get_Ok in Evm as [Hin Hid].
    destruct (rmapM (vm_get all_vms) l) as [r|e]; simpl.
    + constructor; [|done]. rewrite <- Hid. by apply list_elem_of_fmap_2.
    + destruct IH as (vid' & Hin' & Hnot & He). exists vid'.
      split; [by right|done].
  - exists vid. split; [by left|]. unfold vm_get in Evm.
    destruct (find _ all_vms) as [v|] eqn:Efind; [done|].
    inversion Evm; subst. split; [|done]. intros Hin.
    apply list_elem_of_fmap in Hin as (v & Hv & Hin).
    apply list_elem_of_In in Hin.
    apply (find_none _ _ Efind) in Hin. simpl in Hin.
    by rewrite bool_decide_true in Hin.
Qed.

Lemma check_all_raise (all_vms : list VM.t) (G : Z) (pms : list PM.t) :
  match rmapM (check_pm all_vms G) pms with
  | Ok _ => Forall (known all_vms) pms
  | Raise e =>
      ∃ pm vid, pm ∈ pms ∧ vid ∈ PM.vms pm ∧
                (vid ∉ map VM.id all_vms) ∧ e = KeyError_vm vid
  end.
Proof.
  induction pms as [|pm pms IH]; simpl; [constructor|].
  pose proof (residents_raise all_vms (PM.vms pm)) as Hres.
  destruct (check_pm all_vms G pm) as [errs|e] eqn:Echeck; simpl;
    unfold check_pm in Echeck;
    destruct (rmapM (vm_get all_vms) (PM.vms pm)) as [r|e']; try done.
  - destruct (rmapM (check_pm all_vms G) pms) as [per|e]; simpl.
    + by constructor.
    + destruct IH as (pm' & vid & Hin & ?). exists pm', vid.
      split; [by right|done].
  - simpl in Echeck. inversion Echeck; subst.
    destruct Hres as (vid & Hin & Hnot & He). exists pm, vid.
    split; [by left|done].
Qed.

(** X6. [check_feasibility] raises exactly when some listed VM
    identifier is not a key of [_vms], and then the [KeyError] names
    such an identifier. *)
Theorem check_feasibility_raises (s : GammaFFSolver Rng) :
  match check_feasibility s with
  | Ok _ => Forall (known (_vms s)) (_pms s)
  | Raise e =>
      ∃ pm vid, pm ∈ _pms s ∧ vid ∈ PM.vms pm ∧
                (vid ∉ map VM.id (_vms s)) ∧ e = KeyError_vm vid
  end.
Proof.
  unfold check_feasibility.
  pose proof (check_all_raise (_vms s) (G s) (_pms s)) as H.
  by destruct (rmapM (check_pm (_vms s) (G s)) (_pms s)).
Qed.
End Audit.


(** ** First fit *)

Lemma first_fit_Some (vm : VM.t) (pms pms' : list PM.t)
  (all_vms : list VM.t) (G h : Z) :
  first_fit vm pms all_vms G = Ok (Some (h, pms')) →
  ∃ earlier pm later,
    pms = earlier ++ pm :: later ∧
    Forall (fun pm' => can_place_vm_on_pm vm pm' all_vms G = Ok false)
      earlier ∧
    can_place_vm_on_pm vm pm all_vms G = Ok true ∧
    h = PM.id pm ∧
    pms' = earlier
           ++ PM.set_active true (PM.set_vms (PM.vms pm ++ [VM.id vm]) pm)
           :: later.
Proof.
  revert pms'. induction pms as [|pm pms IH]; intros pms' H; simpl in H.
  - done.
  - apply bind_Ok_inv in H as (ok & Eok & H). destruct ok.
    + inversion H; subst. exists [], pm, pms. by repeat split.
    + apply bind_Ok_inv in H as (r & Er & H).
      destruct r as [[h' rest']|]; [|done]. inversion H; subst.
      destruct (IH _ Er) as (earlier & pm' & later & -> & Hno & Hyes & -> & ->).
      exists (pm :: earlier), pm', later. split; [done|].
      split; [by constructor|done].
Qed.

(** X7. First fit: the scan either ends without a PM, and then every
    PM refused the VM, or it stops at the first PM of the iteration
    order that admits the VM; every earlier PM refused it, the VM is
    appended to that PM's list, the PM is marked active, and no other
    PM changes. *)
Theorem first_fit_takes_first (vm : VM.t) (pms : list PM.t)
  (all_vms : list VM.t) (G : Z) (r : option (Z * list PM.t)) :
  first_fit vm pms all_vms G = Ok r →
  match r with
  | None =>
      Forall (fun pm => can_place_vm_on_pm vm pm all_vms G = Ok false) pms
  | Some (h, pms') =>
      ∃ earlier pm later,
        pms = earlier ++ pm :: later ∧
        Forall (fun pm' => can_place_vm_on_pm vm pm' all_vms G = Ok false)
          earlier ∧
        can_place_vm_on_pm vm pm all_vms G = Ok true ∧
        h = PM.id pm ∧
        pms' = earlier
               ++ PM.set_active true
                    (PM.set_vms (PM.vms pm ++ [VM.id vm]) pm)
               :: later
  end.
Proof.
  intros H. destruct r as [[h pms']|].
  - by apply first_fit_Some.
  - by apply first_fit_None.
Qed.

Lemma first_fit_takes_first_witness :
  first_fit (VM.mk "x" 5 0 5 (Some 1%Z))
    [PM.mk 1 10 100 ["y"; "z"] true; PM.mk 2 6 1 [] true;
     PM.mk 3 10 100 [] false] churn_vms 1
  = Ok (Some (3%Z, [PM.mk 1 10 100 ["y"; "z"] true; PM.mk 2 6 1 [] true;
                    PM.mk 3 10 100 ["x"] true])) ∧
  ∃ earlier pm later,
    [PM.mk 1 10 100 ["y"; "z"] true; PM.mk 2 6 1 [] true;
     PM.mk 3 10 100 [] false] = earlier ++ pm :: later ∧
    Forall (fun pm' => can_place_vm_on_pm (VM.mk "x" 5 0 5 (Some 1%Z)) pm'
                         churn_vms 1 = Ok false) earlier ∧
    can_place_vm_on_pm (VM.mk "x" 5 0 5 (Some 1%Z)) pm churn_vms 1
    = Ok true ∧
    3%Z = PM.id pm ∧
    [PM.mk 1 10 100 ["y"; "z"] true; PM.mk 2 6 1 [] true;
     PM.mk 3 10 100 ["x"] true]
    = earlier
      ++ PM.set_active true
           (PM.set_vms (PM.vms pm ++ [VM.id (VM.mk "x" 5 0 5 (Some 1%Z))]) pm)
      :: later.
Proof.
  assert (first_fit (VM.mk "x" 5 0 5 (Some 1%Z))
            [PM.mk 1 10 100 ["y"; "z"] true; PM.mk 2 6 1 [] true;
             PM.mk 3 10 100 [] false] churn_vms 1
          = Ok (Some (3%Z, [PM.mk 1 10 100 ["y"; "z"] true;
                            PM.mk 2 6 1 [] true;
                            PM.mk 3 10 100 ["x"] true]))) as H
    by (vm_compute; reflexivity).
  split; [exact H|]. exact (first_fit_takes_first _ _ _ _ _ H).
Defined.

(** ** What an iteration leaves alone *)

Lemma same_host_refl (pms : list PM.t) : Forall2 same_host pms pms.
Proof. induction pms; constructor; [by repeat split|done]. Qed.

Lemma same_host_trans (l1 l2 l3 : list PM.t) :
  Forall2 same_host l1 l2 → Forall2 same_host l2 l3 →
  Forall2 same_host l1 l3.
Proof.
  intros H12. revert l3.
  induction H12 as [|a b l1 l2 (?&?&?) _ IH]; intros l3 H23;
    inversion H23 as [|? c ? l3' (?&?&?) ?]; subst; constructor; [|by apply IH].
  repeat split; congruence.
Qed.

Lemma same_demand_list_refl (vms : list VM.t) : Forall2 same_demand vms vms.
Proof. induction vms; constructor; [apply same_demand_refl|done]. Qed.

Lemma same_demand_trans (l1 l2 l3 : list VM.t) :
  Forall2 same_demand l1 l2 → Forall2 same_demand l2 l3 →
  Forall2 same_demand l1 l3.
Proof.
  intros H12. revert l3.
  induction H12 as [|a b l1 l2 (?&?&?&?) _ IH]; intros l3 H23;
    inversion H23 as [|? c ? l3' (?&?&?&?) ?]; subst; constructor;
    [|by apply IH].
  repeat split; congruence.
Qed.

Lemma alter_first_same {A} (R : A → A → Prop) (p : A → bool) (f : A → A)
  (l : list A) :
  (∀ x, R x x) → (∀ x, R x (f x)) → Forall2 R l (alter_first p f l).
Proof.
  intros Hrefl Hf. induction l as [|x l IH]; simpl; [constructor|].
  destruct (p x); constructor; auto.
  clear IH. induction l; constructor; auto.
Qed.

Lemma vm_alter_same_demand (h : option Z) (vid : string) (vms : list VM.t) :
  Forall2 same_demand vms (vm_alter (VM.set_pm_id h) vid vms).
Proof.
  apply alter_first_same; [apply same_demand_refl|]. by repeat split.
Qed.

Lemma pm_alter_same_host (l : list string) (h : Z) (pms : list PM.t) :
  Forall2 same_host pms (pm_alter (PM.set_vms l) h pms).
Proof. apply alter_first_same; by repeat split. Qed.

Lemma refresh_active_same_host (pms : list PM.t) :
  Forall2 same_host pms (refresh_active pms).
Proof.
  unfold refresh_active. induction pms; simpl; constructor;
    [by repeat split|done].
Qed.

Lemma first_fit_same_host (vm : VM.t) (pms pms' : list PM.t)
  (all_vms : list VM.t) (G h : Z) :
  first_fit vm pms all_vms G = Ok (Some (h, pms')) →
  Forall2 same_host pms pms'.
Proof.
  intros H. apply first_fit_Some in H as (l1 & pm & l2 & -> & _ & _ & _ & ->).
  apply Forall2_app; [apply same_host_refl|].
  constructor; [by repeat split|apply same_host_refl].
Qed.

Lemma place_all_frame (queue : list string) (pms pms' : list PM.t)
  (all_vms vms' : list VM.t) (G : Z) (b : bool) :
  place_all queue pms all_vms G = Ok (b, pms', vms') →
  Forall2 same_host pms pms' ∧ Forall2 same_demand all_vms vms'.
Proof.
  revert pms all_vms.
  induction queue as [|vid queue IH]; intros pms all_vms H; simpl in H.
  - inversion H; subst.
    split; [apply same_host_refl|apply same_demand_list_refl].
  - apply bind_Ok_inv in H as (vm & Evm & H).
    apply bind_Ok_inv in H as (r & Er & H).
    destruct r as [[h pms1]|].
    + apply IH in H as [Hh Hd]. split.
      * eapply same_host_trans; [by eapply first_fit_same_host|done].
      * eapply same_demand_trans; [apply vm_alter_same_demand|done].
    + inversion H; subst.
      split; [apply same_host_refl|apply same_demand_list_refl].
Qed.

Section Frame.
Context {Rng : Type}.
Variable rng_sample : Rng → list string → nat → list string * Rng.
Variable set_iter : list string → list string.

Local Abbreviation Solver := (GammaFFSolver Rng).

Lemma sample_others_same_host (target : Z) (ratio : Q)
  (pms pms' : list PM.t) (r r' : Rng) (queue queue' : list string) :
  sample_others rng_sample target ratio pms r queue = Ok (pms', r', queue') →
  Forall2 same_host pms pms'.
Proof.
  revert pms' r r' queue queue'.
  induction pms as [|pm pms IH]; intros pms' r r' queue queue' H;
    simpl in H.
  - inversion H; subst. constructor.
  - destruct (bool_decide (PM.id pm = target) || negb (nonempty (PM.vms pm))).
    + apply bind_Ok_inv in H as ([[rest' r1] q1] & Erest & H).
      inversion H; subst. constructor; [by repeat split|by eapply IH].
    + apply bind_Ok_inv in H as ([sampled r1] & Esample & H).
      apply bind_Ok_inv in H as ([[rest' r2] q2] & Erest & H).
      inversion H; subst. constructor; [by repeat split|by eapply IH].
Qed.

Lemma iteration_frame (s s' : Solver) (b : bool) :
  _single_iteration rng_sample set_iter s = Ok (b, s') →
  Forall2 same_host (_pms s) (_pms s') ∧
  Forall2 same_demand (_vms s) (_vms s').
Proof.
  intros H. apply iteration_cases in H as (_ & _ & _ & Hcase).
  destruct Hcase as [(_ & -> & -> & _)|(_ & Hcommit)].
  - split; [apply same_host_refl|apply same_demand_list_refl].
  - destruct Hcommit
      as (pm_empty & pms2 & rng' & queue1 & queue & pms3
          & _ & Hsample & _ & Hplace & -> & _).
    apply sample_others_same_host in Hsample.
    apply place_all_frame in Hplace as [Hh Hd]. split; [|done].
    eapply same_host_trans; [apply pm_alter_same_host|].
    eapply same_host_trans; [exact Hsample|].
    eapply same_host_trans; [exact Hh|apply refresh_active_same_host].
Qed.

Lemma run_loop_frame (fuel : nat) (improved : bool) (s s' : Solver)
  (b : bool) :
  run_loop rng_sample set_iter fuel improved s = Ok (b, s') →
  G s' = G s ∧ sample_ratio s' = sample_ratio s ∧ max_iter s' = max_iter s ∧
  Forall2 same_host (_pms s) (_pms s') ∧
  Forall2 same_demand (_vms s) (_vms s').
Proof.
  revert improved s.
  induction fuel as [|fuel IH]; intros improved s H; simpl in H.
  - inversion H; subst. do 3 (split; [done|]).
    split; [apply same_host_refl|apply same_demand_list_refl].
  - apply bind_Ok_inv in H as ([success s1] & Eiter & H).
    pose proof (iteration_frame _ _ _ Eiter) as [Hh Hd].
    apply iteration_cases in Eiter as (HG & Hr & Hm & _).
    cbv beta iota in H. destruct success.
    + apply IH in H as (HG' & Hr' & Hm' & Hh' & Hd').
      split; [congruence|]. split; [congruence|]. split; [congruence|].
      split; [by eapply same_host_trans|by eapply same_demand_trans].
    + by inversion H; subst.
Qed.

(** X8. [run] changes the placement and nothing else: [G],
    [sample_ratio] and [max_iter] stay, the PMs stay the same PMs in the
    same order with the same capacities, and the VMs stay the same VMs
    in the same order with the same center, radius and memory. *)
Theorem run_changes_only_placement (s s' : Solver) (b : bool) :
  run rng_sample set_iter s = Ok (b, s') →
  G s' = G s ∧ sample_ratio s' = sample_ratio s ∧ max_iter s' = max_iter s ∧
  Forall2 same_host (_pms s) (_pms s') ∧
  Forall2 same_demand (_vms s) (_vms s').
Proof. apply run_loop_frame. Qed.

Lemma run_loop_true (fuel : nat) (s s' : Solver) (b : bool) :
  run_loop rng_sample set_iter fuel true s = Ok (b, s') → b = true.
Proof.
  revert s. induction fuel as [|fuel IH]; intros s H; simpl in H.
  - by inversion H.
  - apply bind_Ok_inv in H as ([success s1] & _ & H).
    cbv beta iota in H. destruct success; [by eapply IH|by inversion H].
Qed.

(** X9. When [run] returns [False] it has changed nothing: either
    [max_iter] allowed no iteration, or the first iteration failed and
    was rolled back; the PMs, the VMs and the migration counter are the
    ones [run] started with. *)
Theorem run_false_unchanged (s s' : Solver) :
  run rng_sample set_iter s = Ok (false, s') →
  _pms s' = _pms s ∧ _vms s' = _vms s ∧
  migration_count s' = migration_count s ∧
  ((max_iter s ≤ 0)%Z ∨
   ∃ s1, _single_iteration rng_sample set_iter s = Ok (false, s1)).
Proof.
  unfold run. intros H.
  destruct (Z.to_nat (max_iter s)) as [|fuel] eqn:Efuel; simpl in H.
  - inversion H; subst. do 3 (split; [done|]). left. lia.
  - apply bind_Ok_inv in H as ([success s1] & Eiter & H).
    cbv beta iota in H. destruct success.
    + by apply run_loop_true in H.
    + inversion H; subst.
      pose proof (iteration_cases _ _ _ _ _ Eiter) as (_ & _ & _ & Hcase).
      destruct Hcase as [(_ & ? & ? & ?)|(? & _)]; [|done].
      do 3 (split; [done|]). right. by exists s'.
Qed.

(** X10. The migration counter never decreases during [run], and it
    grows by at most the number of VMs for each of the at most
    [max_iter] iterations. *)
Theorem migration_count_bounds (s s' : Solver) (b : bool) :
  run rng_sample set_iter s = Ok (b, s') →
  migration_count s ≤ migration_count s' ∧
  migration_count s'
  ≤ migration_count s + Z.to_nat (max_iter s) * length (_vms s).
Proof.
  unfold run. generalize (Z.to_nat (max_iter s)) false.
  intros fuel. revert s.
  induction fuel as [|fuel IH]; intros s improved H; simpl in H.
  - inversion H; subst. lia.
  - apply bind_Ok_inv in H as ([success s1] & Eiter & H).
    pose proof (iteration_frame _ _ _ Eiter) as [_ Hd].
    apply Forall2_length in Hd.
    apply iteration_cases in Eiter as (_ & _ & _ & Hcase).
    cbv beta iota in H.
    assert (migration_count s ≤ migration_count s1
            ≤ migration_count s + length (_vms s)) as Hstep.
    { destruct Hcase as [(_ & _ & _ & ->)|(_ & Hcommit)]; [lia|].
      destruct Hcommit as (?&?&?&?&?&?&_&_&_&_&_&->).
      unfold moved. pose proof (length_filter
        (fun vm => assignment (_vms s) (VM.id vm) ≠ Some (VM.pm_id vm))
        (_vms s1)). lia. }
    destruct success.
    + apply IH in H. rewrite <- Hd in H. lia.
    + inversion H; subst. lia.
Qed.

End Frame.

Lemma run_changes_only_placement_witness :
  run head_sample set_iter_fwd churn_solver = Ok (true, churn_final) ∧
  G churn_final = G churn_solver ∧
  sample_ratio churn_final = sample_ratio churn_solver ∧
  max_iter churn_final = max_iter churn_solver ∧
  Forall2 same_host (_pms churn_solver) (_pms churn_final) ∧
  Forall2 same_demand (_vms churn_solver) (_vms churn_final).
Proof.
  assert (run head_sample set_iter_fwd churn_solver = Ok (true, churn_final))
    as H by (vm_compute; reflexivity).
  split; [exact H|].
  exact (run_changes_only_placement head_sample set_iter_fwd _ _ _ H).
Defined.

Lemma run_false_unchanged_witness :
  run head_sample set_iter_fwd tight_solver = Ok (false, tight_solver) ∧
  _pms tight_solver = _pms tight_solver ∧
  _vms tight_solver = _vms tight_solver ∧
  migration_count tight_solver = migration_count tight_solver ∧
  ((max_iter tight_solver ≤ 0)%Z ∨
   ∃ s1, _single_iteration head_sample set_iter_fwd tight_solver
         = Ok (false, s1)).
Proof.
  assert (run head_sample set_iter_fwd tight_solver = Ok (false, tight_solver))
    as H by (vm_compute; reflexivity).
  split; [exact H|].
  exact (run_false_unchanged head_sample set_iter_fwd _ _ H).
Defined.

Lemma migration_count_bounds_witness :
  run head_sample set_iter_fwd churn_solver = Ok (true, churn_final) ∧
  migration_count churn_solver ≤ migration_count churn_final ∧
  migration_count churn_final
  ≤ migration_count churn_solver
    + Z.to_nat (max_iter churn_solver) * length (_vms churn_solver).
Proof.
  assert (run head_sample set_iter_fwd churn_solver = Ok (true, churn_final))
    as H by (vm_compute; reflexivity).
  split; [exact H|].
  exact (migration_count_bounds head_sample set_iter_fwd _ _ _ H).
Defined.

(** ** The two sides of the placement stay in sync *)

Lemma assignment_alter (p : option Z) (vid x : string) (vms : list VM.t) :
  assignment (vm_alter (VM.set_pm_id p) vid vms) x
  = if decide (x = vid)
    then match assignment vms vid with Some _ => Some p | None => None end
    else assignment vms x.
Proof.
  unfold assignment, vm_alter.
  induction vms as [|v l IH]; simpl; [by destruct (decide (x = vid))|].
  destruct (decide (x = vid)) as [->|Hne].
  - case_bool_decide as Hv; simpl.
    + by rewrite bool_decide_true.
    + by rewrite bool_decide_false.
  - case_bool_decide as Hv; simpl.
    + rewrite bool_decide_false by congruence. done.
    + case_bool_decide; [done|]. exact IH.
Qed.

Lemma vm_get_assignment (vms : list VM.t) (vid : string) (vm : VM.t) :
  vm_get vms vid = Ok vm → assignment vms vid = Some (VM.pm_id vm).
Proof.
  unfold vm_get, assignment. destruct (find _ vms); [|done].
  by intros [= ->].
Qed.

Lemma listed_ids_app (l1 l2 : list PM.t) :
  listed_ids (l1 ++ l2) = listed_ids l1 ++ listed_ids l2.
Proof. unfold listed_ids. by rewrite map_app, concat_app. Qed.

Lemma listed_ids_cons (pm : PM.t) (l : list PM.t) :
  listed_ids (pm :: l) = PM.vms pm ++ listed_ids l.
Proof. done. Qed.

Lemma elem_of_listed_ids (pms : list PM.t) (x : string) :
  x ∈ listed_ids pms ↔ ∃ pm, pm ∈ pms ∧ x ∈ PM.vms pm.
Proof.
  unfold listed_ids. rewrite elem_of_concat. split.
  - intros (l & Hx & Hl). apply list_elem_of_fmap in Hl as (pm & -> & Hpm).
    by exists pm.
  - intros (pm & Hpm & Hx). exists (PM.vms pm). split; [done|].
    by apply list_elem_of_fmap_2.
Qed.

Lemma same_host_ids (pms pms' : list PM.t) :
  Forall2 same_host pms pms' → map PM.id pms' = map PM.id pms.
Proof.
  induction 1 as [|pm pm' pms pms' (Hid & _) _ IH]; simpl; [done|].
  by rewrite Hid, IH.
Qed.

Lemma same_demand_ids (vms vms' : list VM.t) :
  Forall2 same_demand vms vms' → map VM.id vms' = map VM.id vms.
Proof.
  induction 1 as [|vm vm' vms vms' (Hid & _) _ IH]; simpl; [done|].
  by rewrite Hid, IH.
Qed.

(** The pass over the queue: what is listed is assigned, and what is
    assigned is listed or still queued. *)
Lemma place_all_sync (queue : list string) (pms pms' : list PM.t)
  (vms vms' : list VM.t) (G : Z) :
  NoDup (listed_ids pms ++ queue) →
  (∀ pm x, pm ∈ pms → x ∈ PM.vms pm →
     assignment vms x = Some (Some (PM.id pm))) →
  (∀ x h, assignment vms x = Some (Some h) →
     x ∈ queue ∨ ∃ pm, pm ∈ pms ∧ PM.id pm = h ∧ x ∈ PM.vms pm) →
  place_all queue pms vms G = Ok (true, pms', vms') →
  NoDup (listed_ids pms') ∧
  (∀ pm x, pm ∈ pms' → x ∈ PM.vms pm →
     assignment vms' x = Some (Some (PM.id pm))) ∧
  (∀ x h, assignment vms' x = Some (Some h) →
     ∃ pm, pm ∈ pms' ∧ PM.id pm = h ∧ x ∈ PM.vms pm).
Proof.
  revert pms vms.
  induction queue as [|vid queue IH]; intros pms vms Hnd Hlisted Hassigned H;
    simpl in H.
  - inversion H; subst. rewrite app_nil_r in Hnd. split; [done|].
    split; [done|]. intros x h Hx.
    destruct (Hassigned x h Hx) as [Hin|?]; [|done]. by apply elem_of_nil in Hin.
  - apply bind_Ok_inv in H as (vm & Evm & H).
    apply bind_Ok_inv in H as (r & Er & H).
    destruct r as [[h pms1]|]; [|done].
    pose proof (vm_get_Ok _ _ _ Evm) as [_ Hid].
    pose proof (vm_get_assignment _ _ _ Evm) as Hvid.
    apply first_fit_Some in Er
      as (l1 & pm & l2 & -> & _ & _ & -> & ->).
    rewrite Hid in *.
    set (pm1 := PM.set_active true (PM.set_vms (PM.vms pm ++ [vid]) pm)) in *.
    assert (∀ x, x ∈ listed_ids (l1 ++ pm :: l2) → x ≠ vid) as Hfresh.
    { intros x Hx ->. apply NoDup_app in Hnd as (_ & Hdisj & _).
      apply (Hdisj _ Hx). left. }
    apply IH in H; [done| | |].
    + rewrite listed_ids_app, listed_ids_cons in *. simpl.
      rewrite <- !app_assoc in *. simpl.
      by rewrite (Permutation_middle (listed_ids l2) queue vid).
    + intros pm' x Hpm' Hx. rewrite assignment_alter.
      apply elem_of_app in Hpm' as [Hpm'|Hpm'];
        [|apply elem_of_cons in Hpm' as [->|Hpm']].
      * rewrite decide_False.
        -- apply Hlisted; [|done]. apply elem_of_app. by left.
        -- apply Hfresh, elem_of_listed_ids. exists pm'.
           split; [|done]. apply elem_of_app. by left.
      * simpl in Hx. apply elem_of_app in Hx as [Hx|Hx].
        -- rewrite decide_False.
           ++ apply (Hlisted pm); [|done]. apply elem_of_app. right. left.
           ++ apply Hfresh, elem_of_listed_ids. exists pm.
              split; [|done]. apply elem_of_app. right. left.
        -- apply list_elem_of_singleton in Hx as ->.
           rewrite decide_True by done. by rewrite Hvid.
      * rewrite decide_False.
        -- apply Hlisted; [|done]. apply elem_of_app. right. by right.
        -- apply Hfresh, elem_of_listed_ids. exists pm'.
           split; [|done]. apply elem_of_app. right. by right.
    + intros x h Hx. rewrite assignment_alter in Hx.
      destruct (decide (x = vid)) as [->|Hne].
      * rewrite Hvid in Hx. inversion Hx; subst. right. exists pm1.
        split; [apply elem_of_app; right; left|]. split; [done|].
        simpl. apply elem_of_app. right. left.
      * destruct (Hassigned x h Hx) as [Hin|(pm' & Hpm' & Hh & Hin)].
        -- apply elem_of_cons in Hin as [?|Hin]; [done|by left].
        -- right. apply elem_of_app in Hpm' as [Hpm'|Hpm'];
             [|apply elem_of_cons in Hpm' as [->|Hpm']].
           ++ exists pm'. split; [apply elem_of_app; by left|done].
           ++ exists pm1. split; [apply elem_of_app; right; left|].
              split; [done|]. simpl. apply elem_of_app. by left.
           ++ exists pm'. split; [apply elem_of_app; right; by right|done].
Qed.

Lemma shrunk_listed_sublist (pms pms' : list PM.t) :
  Forall2 shrunk pms pms' → listed_ids pms' `sublist_of` listed_ids pms.
Proof.
  induction 1 as [|pm pm' pms pms' (_ & _ & Hsub) _ IH]; [done|].
  rewrite !listed_ids_cons. by apply sublist_app.
Qed.

Lemma select_target_split (pms : list PM.t) (pm_empty : PM.t) :
  select_target pms = Some pm_empty →
  ∃ l1 l2, pms = l1 ++ pm_empty :: l2.
Proof.
  intros H.
  pose proof (py_min_filter (fun pm => length (PM.vms pm))
                (fun pm => PM.vms pm ≠ []) pms) as Hmin.
  fold (select_target pms) in Hmin. rewrite H in Hmin.
  destruct Hmin as (l1 & l2 & -> & _). by exists l1, l2.
Qed.

Lemma alter_first_app_r {A} (p : A → bool) (f : A → A) (l1 l2 : list A)
  (x : A) :
  Forall (fun y => p y = false) l1 → p x = true →
  alter_first p f (l1 ++ x :: l2) = l1 ++ f x :: l2.
Proof.
  intros Hl1 Hx. induction Hl1 as [|y l1 Hy _ IH]; simpl.
  - by rewrite Hx.
  - by rewrite Hy, IH.
Qed.

(** Emptying the target takes exactly its VMs off the lists. *)
Lemma drain_partition (l1 l2 : list PM.t) (t : PM.t) :
  NoDup (map PM.id (l1 ++ t :: l2)) →
  NoDup (listed_ids (l1 ++ t :: l2)) →
  pm_alter (PM.set_vms []) (PM.id t) (l1 ++ t :: l2)
  = l1 ++ PM.set_vms [] t :: l2 ∧
  (∀ x, x ∈ listed_ids (l1 ++ t :: l2) ↔
        x ∈ listed_ids (l1 ++ PM.set_vms [] t :: l2) ∨ x ∈ PM.vms t) ∧
  (∀ x, x ∈ listed_ids (l1 ++ PM.set_vms [] t :: l2) → x ∉ PM.vms t).
Proof.
  intros Hids Hnd. split; [|split].
  - unfold pm_alter. apply alter_first_app_r; [|by apply bool_decide_true].
    rewrite map_app in Hids. simpl in Hids.
    apply NoDup_app in Hids as (_ & Hdisj & _).
    apply Forall_forall. intros pm Hpm. apply bool_decide_false.
    intros Heq. apply (Hdisj (PM.id pm)).
    + by apply list_elem_of_fmap_2.
    + rewrite Heq. left.
  - intros x. rewrite !listed_ids_app, !listed_ids_cons. simpl.
    rewrite !elem_of_app. tauto.
  - intros x. rewrite !listed_ids_app, !listed_ids_cons in *. simpl.
    rewrite elem_of_app. intros [Hx|Hx] Ht.
    + apply NoDup_app in Hnd as (_ & Hdisj & _). apply (Hdisj _ Hx).
      apply elem_of_app. by left.
    + apply NoDup_app in Hnd as (_ & _ & Hnd).
      apply NoDup_app in Hnd as (_ & Hdisj & _). by apply (Hdisj _ Ht).
Qed.

Section Sync.
Context {Rng : Type}.
Variable rng_sample : Rng → list string → nat → list string * Rng.
Variable set_iter : list string → list string.
Hypothesis sample_lawful : lawful_sample rng_sample.
Hypothesis set_iter_exact : exact_set_iter set_iter.

Local Abbreviation Solver := (GammaFFSolver Rng).

(** Sampling takes the sampled VMs off the lists and nothing else. *)
Lemma sample_others_partition (target : Z) (ratio : Q)
  (pms pms' : list PM.t) (r r' : Rng) (queue queue' : list string) :
  NoDup (listed_ids pms) →
  sample_others rng_sample target ratio pms r queue = Ok (pms', r', queue') →
  ∃ removed,
    queue' = queue ++ removed ∧
    (∀ x, x ∈ listed_ids pms ↔ x ∈ listed_ids pms' ∨ x ∈ removed) ∧
    (∀ x, x ∈ listed_ids pms' → x ∉ removed).
Proof.
  revert pms' r r' queue queue'.
  induction pms as [|pm pms IH]; intros pms' r r' queue queue' Hnd H;
    simpl in H.
  - inversion H; subst. exists []. rewrite app_nil_r. split; [done|].
    split; [|by intros x _ ?%elem_of_nil]. intros x. split; [by left|].
    by intros [?|?%elem_of_nil].
  - rewrite listed_ids_cons in Hnd.
    apply NoDup_app in Hnd as (Hpm & Hdisj & Hrest).
    destruct (bool_decide (PM.id pm = target) || negb (nonempty (PM.vms pm))).
    + apply bind_Ok_inv in H as ([[rest' r1] q1] & Erest & H).
      inversion H; subst.
      destruct (IH _ _ _ _ _ Hrest Erest) as (removed & -> & Hiff & Hnot).
      exists removed. split; [done|]. rewrite !listed_ids_cons. split.
      * intros x. rewrite !elem_of_app, Hiff. tauto.
      * intros x. rewrite elem_of_app. intros [Hx|Hx]; [|by apply Hnot].
        intros Hrem. apply (Hdisj _ Hx). apply Hiff. by right.
    + apply bind_Ok_inv in H as ([sampled r1] & Esample & H).
      apply bind_Ok_inv in H as ([[rest' r2] q2] & Erest & H).
      inversion H; subst. unfold sample in Esample.
      case_bool_decide as Hk; [|done]. inversion Esample as [Hs].
      pose proof (sample_lawful r (PM.vms pm)
                    (Z.to_nat (Z.max 1 (py_int
                       (inject_Z (Z.of_nat (length (PM.vms pm))) * ratio)%Q))))
        as Hsub.
      rewrite Hs in Hsub. simpl in Hsub. specialize (Hsub ltac:(lia)).
      destruct (IH _ _ _ _ _ Hrest Erest) as (removed & -> & Hiff & Hnot).
      exists (sampled ++ removed). split; [by rewrite app_assoc|].
      rewrite !listed_ids_cons. simpl. split.
      * intros x. rewrite !elem_of_app, list_elem_of_filter, Hiff.
        split; [|intros [[[_ ?]|?]|[?|?]]; auto].
        intros [Hx|[?|?]]; auto.
        destruct (decide (x ∈ sampled)); auto.
      * intros x. rewrite !elem_of_app, list_elem_of_filter.
        intros [[Hns Hx]|Hx] [Hs'|Hrem]; [done| | |by apply (Hnot x)].
        -- apply (Hdisj _ Hx). apply Hiff. by right.
        -- apply (Hdisj x); [by apply Hsub|]. apply Hiff. by left.
Qed.

Lemma refresh_active_listed (pms : list PM.t) :
  listed_ids (refresh_active pms) = listed_ids pms.
Proof.
  unfold listed_ids, refresh_active. rewrite map_map. done.
Qed.

(** An iteration keeps the two sides of the placement in sync. *)
Lemma iteration_in_sync (s s' : Solver) (b : bool) :
  in_sync (_pms s) (_vms s) →
  _single_iteration rng_sample set_iter s = Ok (b, s') →
  in_sync (_pms s') (_vms s').
Proof.
  intros Hsync H. pose proof (iteration_frame _ _ _ _ _ H) as [Hhost Hdem].
  destruct Hsync as (Hpid & Hvid & Hnd & Hlisted & Hassigned & Hactive).
  apply iteration_cases in H as (_ & _ & _ & Hcase).
  destruct Hcase as [(_ & -> & -> & _)|(_ & Hcommit)]; [done|].
  destruct Hcommit
    as (pm_empty & pms2 & rng' & queue1 & queue & pms3
        & Htarget & Hsample & Horder & Hplace & Hpms' & _).
  destruct (select_target_split _ _ Htarget) as (l1 & l2 & Hsplit).
  rewrite Hsplit in Hpid, Hnd.
  destruct (drain_partition l1 l2 pm_empty Hpid Hnd)
    as (Hdrain & Hd_iff & Hd_not).
  rewrite <- Hsplit in Hpid, Hnd. rewrite Hsplit, Hdrain in Hsample.
  set (pms1 := l1 ++ PM.set_vms [] pm_empty :: l2) in *.
  assert (Forall2 shrunk (_pms s) pms1) as Hsh1.
  { rewrite Hsplit. unfold pms1. apply Forall2_app.
    - apply Forall2_same_length_lookup. split; [done|].
      intros i x y Hx Hy. rewrite Hx in Hy. inversion Hy; subst.
      by repeat split.
    - constructor.
      + split; [done|]. split; [done|]. apply sublist_nil_l.
      + apply Forall2_same_length_lookup. split; [done|].
        intros i x y Hx Hy. rewrite Hx in Hy. inversion Hy; subst.
        by repeat split. }
  assert (Forall2 same_host (_pms s) pms1) as Hh1.
  { rewrite Hsplit. unfold pms1. apply Forall2_app; [apply same_host_refl|].
    constructor; [by repeat split|apply same_host_refl]. }
  assert (NoDup (listed_ids pms1)) as Hnd1.
  { eapply sublist_NoDup; [exact Hnd|by apply shrunk_listed_sublist]. }
  pose proof (sample_others_shrunk _ _ _ _ _ _ _ _ _ Hsample) as Hsh2.
  pose proof (sample_others_same_host _ _ _ _ _ _ _ _ _ Hsample) as Hh2.
  destruct (sample_others_partition _ _ _ _ _ _ _ _ Hnd1 Hsample)
    as (removed & -> & Hs_iff & Hs_not).
  assert (NoDup (listed_ids pms2)) as Hnd2.
  { eapply sublist_NoDup; [exact Hnd1|by apply shrunk_listed_sublist]. }
  apply order_queue_sort in Horder as ->.
  destruct set_iter_exact as [Hset_nd Hset_elem].
  set (queue := sort_desc (u_max_of (_vms s))
                  (set_iter (PM.vms pm_empty ++ removed))) in *.
  assert (∀ x, x ∈ queue ↔ x ∈ PM.vms pm_empty ∨ x ∈ removed) as Hq.
  { intros x. unfold queue. rewrite sort_desc_perm, Hset_elem.
    apply elem_of_app. }
  assert (∀ pm2 x, pm2 ∈ pms2 → x ∈ PM.vms pm2 →
            ∃ pm, pm ∈ _pms s ∧ PM.id pm = PM.id pm2 ∧ x ∈ PM.vms pm)
    as Hback.
  { intros pm2 x Hpm2 Hx.
    apply list_elem_of_lookup in Hpm2 as (i & Hi).
    destruct (Forall2_lookup_r _ _ _ _ _ Hsh2 Hi) as (pm1 & Hi1 & _ & _ & Hsub2).
    destruct (Forall2_lookup_r _ _ _ _ _ Hh2 Hi) as (pm1' & Hi1' & Hid2 & _).
    rewrite Hi1 in Hi1'. inversion Hi1'; subst pm1'.
    destruct (Forall2_lookup_r _ _ _ _ _ Hsh1 Hi1) as (pm & Hi0 & _ & _ & Hsub1).
    destruct (Forall2_lookup_r _ _ _ _ _ Hh1 Hi1) as (pm' & Hi0' & Hid1 & _).
    rewrite Hi0 in Hi0'. inversion Hi0'; subst pm'.
    exists pm. split; [by eapply list_elem_of_lookup_2|].
    split; [congruence|].
    eapply elem_of_sublist; [|exact Hsub1].
    eapply elem_of_sublist; [exact Hx|exact Hsub2]. }
  destruct (place_all_sync queue pms2 pms3 (_vms s) (_vms s') (G s))
    as (Hnd3 & Hlisted3 & Hassigned3); [| | |done|].
  - apply NoDup_app. split; [done|]. split.
    + intros x Hx Hxq. apply Hq in Hxq as [Ht|Hrem].
      * apply (Hd_not x); [|done]. apply Hs_iff. by left.
      * by apply (Hs_not x).
    + unfold queue. rewrite sort_desc_perm. apply Hset_nd.
  - intros pm2 x Hpm2 Hx.
    destruct (Hback _ _ Hpm2 Hx) as (pm & Hpm & Hid & Hin).
    rewrite <- Hid. by apply Hlisted.
  - intros x h Hx.
    destruct (Hassigned x h Hx) as (pm & Hpm & Hid & Hin).
    assert (x ∈ listed_ids (_pms s)) as Hl
      by (apply elem_of_listed_ids; by exists pm).
    rewrite Hsplit in Hl. apply Hd_iff in Hl as [Hl|Ht];
      [|left; apply Hq; by left].
    apply Hs_iff in Hl as [Hl|Hrem]; [|left; apply Hq; by right].
    right. apply elem_of_listed_ids in Hl as (pm2 & Hpm2 & Hx2).
    exists pm2. split; [done|]. split; [|done].
    destruct (Hback _ _ Hpm2 Hx2) as (pm0 & Hpm0 & Hid0 & Hin0).
    pose proof (Hlisted _ _ Hpm0 Hin0) as Hx0. rewrite Hx in Hx0.
    inversion Hx0. congruence.
  - split; [by rewrite (same_host_ids _ _ Hhost)|].
    split; [by rewrite (same_demand_ids _ _ Hdem)|].
    rewrite Hpms'. split; [by rewrite refresh_active_listed|].
    unfold refresh_active. split; [|split].
    + intros pm x Hpm Hx.
      apply list_elem_of_fmap in Hpm as (pm3 & -> & Hpm3). simpl in *.
      by apply Hlisted3.
    + intros x h Hx. destruct (Hassigned3 x h Hx) as (pm3 & Hpm3 & Hid & Hin).
      exists (PM.set_active (nonempty (PM.vms pm3)) pm3).
      split; [|done].
      apply (list_elem_of_fmap_2
               (fun pm => PM.set_active (nonempty (PM.vms pm)) pm) _ pm3 Hpm3).
    + apply Forall_fmap, Forall_true. intros pm3. done.
Qed.

Lemma run_loop_in_sync (fuel : nat) (improved : bool) (s s' : Solver)
  (b : bool) :
  in_sync (_pms s) (_vms s) →
  run_loop rng_sample set_iter fuel improved s = Ok (b, s') →
  in_sync (_pms s') (_vms s').
Proof.
  revert improved s.
  induction fuel as [|fuel IH]; intros improved s Hs H; simpl in H.
  - by inversion H; subst.
  - apply bind_Ok_inv in H as ([success s1] & Eiter & H).
    pose proof (iteration_in_sync _ _ _ Hs Eiter) as Hs1.
    cbv beta iota in H. destruct success; [by eapply IH|].
    by inversion H; subst.
Qed.

(** X11. [run] keeps the two sides of the placement in sync: if no VM
    is listed twice, every VM listed on a PM has that PM as [pm_id],
    every VM whose [pm_id] is a PM is listed on it and the [active]
    flags agree with the lists, then the same holds when [run]
    returns; no VM is lost or duplicated. *)
Theorem run_keeps_in_sync (s s' : Solver) (b : bool) :
  in_sync (_pms s) (_vms s) →
  run rng_sample set_iter s = Ok (b, s') →
  in_sync (_pms s') (_vms s').
Proof. apply run_loop_in_sync. Qed.

End Sync.

(** ** The constructor puts the two sides in sync *)

Lemma assignment_elem (vms : list VM.t) (vm : VM.t) :
  NoDup (map VM.id vms) → vm ∈ vms →
  assignment vms (VM.id vm) = Some (VM.pm_id vm).
Proof.
  unfold assignment. induction vms as [|v l IH]; simpl.
  - by intros _ ?%elem_of_nil.
  - rewrite NoDup_cons, elem_of_cons. intros [Hv Hl] [->|Hin].
    + by rewrite bool_decide_true.
    + rewrite bool_decide_false; [by apply IH|].
      intros Heq. apply Hv. rewrite Heq. by apply list_elem_of_fmap_2.
Qed.

Lemma assignment_Some (vms : list VM.t) (vid : string) (p : option Z) :
  assignment vms vid = Some p →
  ∃ vm, vm ∈ vms ∧ VM.id vm = vid ∧ VM.pm_id vm = p.
Proof.
  unfold assignment. destruct (find _ vms) as [vm|] eqn:E; [|done].
  intros [= <-]. apply find_some in E as [Hin Hid]. exists vm.
  split; [by apply list_elem_of_In|].
  split; [by apply bool_decide_eq_true in Hid|done].
Qed.

Lemma NoDup_listed_filters (vms : list VM.t) (pms : list PM.t) :
  NoDup (map VM.id vms) → NoDup (map PM.id pms) →
  Forall (fun pm =>
            PM.vms pm
            = map VM.id (filter (fun vm => VM.pm_id vm = Some (PM.id pm)) vms))
         pms →
  NoDup (listed_ids pms).
Proof.
  intros Hvms Hpms H. induction H as [|pm pms Hpm Hrest IH]; [constructor|].
  simpl in Hpms. apply NoDup_cons in Hpms as [Hid Hpms].
  rewrite listed_ids_cons. apply NoDup_app. split; [|split; [|by apply IH]].
  - rewrite Hpm. eapply sublist_NoDup; [exact Hvms|].
    apply fmap_sublist, sublist_filter.
  - intros x Hx Hx'. apply elem_of_listed_ids in Hx' as (pm' & Hpm' & Hx').
    rewrite Forall_forall in Hrest. rewrite (Hrest _ Hpm') in Hx'.
    rewrite Hpm in Hx.
    apply list_elem_of_fmap in Hx as (vm & -> & Hvm).
    apply list_elem_of_fmap in Hx' as (vm' & Heq & Hvm').
    apply list_elem_of_filter in Hvm as [Hh Hvm].
    apply list_elem_of_filter in Hvm' as [Hh' Hvm'].
    pose proof (assignment_elem _ _ Hvms Hvm) as Ha.
    pose proof (assignment_elem _ _ Hvms Hvm') as Ha'.
    rewrite Heq, Ha', Hh, Hh' in Ha. inversion Ha as [Hids].
    apply Hid. rewrite <- Hids. by apply list_elem_of_fmap_2.
Qed.

Lemma init_sync {Rng : Type} (pms : list PM.t) (vms : list VM.t) (G : Z)
  (sample_ratio : Q) (max_iter : Z) (rng : Rng) (s : GammaFFSolver Rng) :
  init pms vms G sample_ratio max_iter rng = Ok s →
  in_sync (_pms s) (_vms s).
Proof.
  unfold init, _sync_vm_pm_lists. intros H.
  apply bind_Ok_inv in H as (pms2 & Hsync & H).
  apply bind_Ok_inv in Hsync as (pms1 & Hsync & Hrefresh).
  inversion Hrefresh; inversion H; subst. simpl. clear H Hrefresh.
  set (vms_d := dict_of VM.id vms) in *.
  set (pms0 := map (PM.set_vms []) (dict_of PM.id pms)) in *.
  assert (NoDup (map PM.id pms0)) as Hpid0.
  { unfold pms0. rewrite map_map. apply (dict_of_NoDup_keys PM.id). }
  assert (NoDup (map VM.id vms_d)) as Hvid
    by apply (dict_of_NoDup_keys VM.id).
  pose proof (sync_append_lists _ _ _ Hpid0 Hsync) as Hlists.
  pose proof (sync_append_Ok _ _ _ Hsync) as [Hsame Hall].
  assert (NoDup (map PM.id pms1)) as Hpid1 by by rewrite Hsame.
  assert (Forall (fun pm =>
            PM.vms pm
            = map VM.id (filter (fun vm => VM.pm_id vm = Some (PM.id pm))
                           vms_d)) pms1) as HF.
  { eapply Forall2_Forall_r; [exact Hlists|].
    unfold pms0. apply Forall_fmap, Forall_true.
    intros pm pm' [Hid Hvms]. simpl in *. by rewrite Hid, Hvms. }
  split; [by rewrite refresh_active_ids|]. split; [done|].
  split; [rewrite refresh_active_listed;
          by apply (NoDup_listed_filters vms_d)|].
  rewrite Forall_forall in HF. unfold refresh_active. split; [|split].
  - intros pm x Hpm Hx.
    apply list_elem_of_fmap in Hpm as (pm1 & -> & Hpm1). simpl in *.
    rewrite (HF _ Hpm1) in Hx.
    apply list_elem_of_fmap in Hx as (vm & -> & Hvm).
    apply list_elem_of_filter in Hvm as [Hh Hvm].
    rewrite <- Hh. by apply assignment_elem.
  - intros x h Hx. apply assignment_Some in Hx as (vm & Hvm & <- & Hh).
    rewrite Forall_forall in Hall. pose proof (Hall _ Hvm h Hh) as Hin.
    rewrite <- Hsame in Hin.
    apply list_elem_of_fmap in Hin as (pm1 & -> & Hpm1).
    exists (PM.set_active (nonempty (PM.vms pm1)) pm1). split.
    + apply (list_elem_of_fmap_2
               (fun pm => PM.set_active (nonempty (PM.vms pm)) pm) _ pm1 Hpm1).
    + split; [done|]. simpl. rewrite (HF _ Hpm1).
      apply list_elem_of_fmap_2, list_elem_of_filter. by split.
  - apply Forall_fmap, Forall_true. intros pm1. done.
Qed.

(** X12. Whatever lists and flags the input PMs carry and whether or
    not identifiers repeat in the input, a solver the constructor
    returns has distinct PM and VM identifiers, lists no VM twice, lists
    a VM on a PM exactly when the VM's [pm_id] is that PM, and has
    [active] set exactly on the PMs with a VM. *)
Theorem init_in_sync {Rng : Type} (pms : list PM.t) (vms : list VM.t)
  (G : Z) (sample_ratio : Q) (max_iter : Z) (rng : Rng)
  (s : GammaFFSolver Rng) :
  init pms vms G sample_ratio max_iter rng = Ok s →
  in_sync (_pms s) (_vms s).
Proof. apply init_sync. Qed.

Lemma init_in_sync_witness :
  init churn_pms churn_vms 1 (15 # 100) 5 tt = Ok churn_solver ∧
  in_sync (_pms churn_solver) (_vms churn_solver).
Proof.
  assert (init churn_pms churn_vms 1 (15 # 100) 5 tt = Ok churn_solver)
    as H by (vm_compute; reflexivity).
  split; [exact H|]. exact (init_in_sync _ _ _ _ _ _ _ H).
Defined.

Lemma set_iter_fwd_exact : exact_set_iter set_iter_fwd.
Proof. split; [apply set_iter_fwd_NoDup|apply set_iter_fwd_elem]. Qed.

Lemma run_keeps_in_sync_witness :
  lawful_sample head_sample ∧ exact_set_iter set_iter_fwd ∧
  in_sync (_pms churn_solver) (_vms churn_solver) ∧
  run head_sample set_iter_fwd churn_solver = Ok (true, churn_final) ∧
  in_sync (_pms churn_final) (_vms churn_final).
Proof.
  assert (init churn_pms churn_vms 1 (15 # 100) 5 tt = Ok churn_solver)
    as Hinit by (vm_compute; reflexivity).
  pose proof (init_sync _ _ _ _ _ _ _ Hinit) as Hsync.
  assert (run head_sample set_iter_fwd churn_solver = Ok (true, churn_final))
    as H by (vm_compute; reflexivity).
  split; [exact head_sample_lawful|]. split; [exact set_iter_fwd_exact|].
  split; [exact Hsync|]. split; [exact H|].
  exact (run_keeps_in_sync head_sample set_iter_fwd head_sample_lawful
           set_iter_fwd_exact _ _ _ Hsync H).
Defined.

(** ** VMs without a PM *)

Lemma place_all_assignment (queue : list string) (pms pms' : list PM.t)
  (vms vms' : list VM.t) (G : Z) (b : bool) (x : string) :
  place_all queue pms vms G = Ok (b, pms', vms') →
  (x ∉ queue → assignment vms' x = assignment vms x) ∧
  (assignment vms' x = assignment vms x
   ∨ ∃ h, assignment vms' x = Some (Some h)).
Proof.
  revert pms vms.
  induction queue as [|vid queue IH]; intros pms vms H; simpl in H.
  - inversion H; subst. split; [done|by left].
  - apply bind_Ok_inv in H as (vm & Evm & H).
    apply bind_Ok_inv in H as (r & Er & H).
    destruct r as [[h pms1]|]; [|inversion H; subst; split; [done|by left]].
    apply IH in H as [Hout Hcases].
    pose proof (vm_get_assignment _ _ _ Evm) as Hvid.
    rewrite assignment_alter in Hout, Hcases. split.
    + intros Hx. apply not_elem_of_cons in Hx as [Hne Hx].
      rewrite decide_False in Hout by done. by apply Hout.
    + destruct Hcases as [Heq|?]; [|by right].
      destruct (decide (x = vid)) as [->|Hne]; [|by left].
      rewrite Hvid in Heq. right. by exists h.
Qed.

Section Unplaced.
Context {Rng : Type}.
Variable rng_sample : Rng → list string → nat → list string * Rng.
Variable set_iter : list string → list string.
Hypothesis sample_lawful : lawful_sample rng_sample.
Hypothesis set_iter_exact : exact_set_iter set_iter.

Local Abbreviation Solver := (GammaFFSolver Rng).

Lemma sample_others_queue (target : Z) (ratio : Q)
  (pms pms' : list PM.t) (r r' : Rng) (queue queue' : list string)
  (x : string) :
  sample_others rng_sample target ratio pms r queue = Ok (pms', r', queue') →
  x ∈ queue' → x ∈ queue ∨ x ∈ listed_ids pms.
Proof.
  revert pms' r r' queue queue'.
  induction pms as [|pm pms IH]; intros pms' r r' queue queue' H Hx;
    simpl in H.
  - inversion H; subst. by left.
  - rewrite listed_ids_cons, elem_of_app.
    destruct (bool_decide (PM.id pm = target) || negb (nonempty (PM.vms pm))).
    + apply bind_Ok_inv in H as ([[rest' r1] q1] & Erest & H).
      inversion H; subst. destruct (IH _ _ _ _ _ Erest Hx); auto.
    + apply bind_Ok_inv in H as ([sampled r1] & Esample & H).
      apply bind_Ok_inv in H as ([[rest' r2] q2] & Erest & H).
      inversion H; subst. unfold sample in Esample.
      case_bool_decide as Hk; [|done]. inversion Esample as [Hs].
      pose proof (sample_lawful r (PM.vms pm)
                    (Z.to_nat (Z.max 1 (py_int
                       (inject_Z (Z.of_nat (length (PM.vms pm))) * ratio)%Q))))
        as Hsub.
      rewrite Hs in Hsub. simpl in Hsub. specialize (Hsub ltac:(lia)).
      destruct (IH _ _ _ _ _ Erest Hx) as [Hq|?]; auto.
      apply elem_of_app in Hq as [?|Hq]; auto.
Qed.

(** A committed iteration changes the [pm_id] of listed VMs only, and
    only to a PM. *)
Lemma iteration_assignment (s s' : Solver) (b : bool) (x : string) :
  _single_iteration rng_sample set_iter s = Ok (b, s') →
  (x ∉ listed_ids (_pms s) →
   assignment (_vms s') x = assignment (_vms s) x) ∧
  (assignment (_vms s') x = assignment (_vms s) x
   ∨ ∃ h, assignment (_vms s') x = Some (Some h)).
Proof.
  intros H. apply iteration_cases in H as (_ & _ & _ & Hcase).
  destruct Hcase as [(_ & _ & -> & _)|(_ & Hcommit)]; [split; [done|by left]|].
  destruct Hcommit
    as (pm_empty & pms2 & rng' & queue1 & queue & pms3
        & Htarget & Hsample & Horder & Hplace & _ & _).
  destruct (place_all_assignment _ _ _ _ _ _ _ x Hplace) as [Hout Hcases].
  split; [|done]. intros Hx. apply Hout. intros Hq. apply Hx.
  apply order_queue_sort in Horder as ->.
  rewrite sort_desc_perm in Hq.
  apply (proj1 (proj2 set_iter_exact _ _)) in Hq.
  destruct (sample_others_queue _ _ _ _ _ _ _ _ x Hsample Hq) as [Ht|Hl].
  - apply elem_of_listed_ids. exists pm_empty.
    split; [by apply select_target_elem|done].
  - eapply elem_of_sublist; [exact Hl|].
    apply shrunk_listed_sublist, pm_alter_shrunk.
Qed.

(** X13. [run] places no VM that has no PM and unplaces none that has
    one: when the two sides of the placement are in sync, a VM's
    [pm_id] is [None] after [run] exactly when it was [None] before. *)
Theorem run_keeps_unplaced (s s' : Solver) (b : bool) (vid : string) :
  in_sync (_pms s) (_vms s) →
  run rng_sample set_iter s = Ok (b, s') →
  (assignment (_vms s) vid = Some None ↔
   assignment (_vms s') vid = Some None).
Proof.
  unfold run. generalize (Z.to_nat (max_iter s)) false.
  intros fuel. revert s.
  induction fuel as [|fuel IH]; intros s improved Hs H; simpl in H.
  - by inversion H; subst.
  - apply bind_Ok_inv in H as ([success s1] & Eiter & H).
    pose proof (iteration_in_sync _ _ sample_lawful set_iter_exact
                  _ _ _ Hs Eiter) as Hs1.
    destruct (iteration_assignment _ _ _ vid Eiter) as [Hout Hcases].
    assert (assignment (_vms s) vid = Some None ↔
            assignment (_vms s1) vid = Some None) as Hstep.
    { split.
      - intros Hnone. rewrite Hout; [done|]. intros Hl.
        apply elem_of_listed_ids in Hl as (pm & Hpm & Hin).
        destruct Hs as (_ & _ & _ & Hlisted & _).
        rewrite (Hlisted _ _ Hpm Hin) in Hnone. done.
      - intros Hnone. destruct Hcases as [<-|[h Hh]]; [done|congruence]. }
    cbv beta iota in H. destruct success.
    + rewrite Hstep. by eapply IH.
    + by inversion H; subst.
Qed.

End Unplaced.

Lemma run_keeps_unplaced_witness :
  lawful_sample head_sample ∧ exact_set_iter set_iter_fwd ∧
  in_sync (_pms churn_solver) (_vms churn_solver) ∧
  run head_sample set_iter_fwd churn_solver = Ok (true, churn_final) ∧
  (assignment (_vms churn_solver) "w" = Some None ↔
   assignment (_vms churn_final) "w" = Some None).
Proof.
  assert (init churn_pms churn_vms 1 (15 # 100) 5 tt = Ok churn_solver)
    as Hinit by (vm_compute; reflexivity).
  pose proof (init_sync _ _ _ _ _ _ _ Hinit) as Hsync.
  assert (run head_sample set_iter_fwd churn_solver = Ok (true, churn_final))
    as H by (vm_compute; reflexivity).
  split; [exact head_sample_lawful|]. split; [exact set_iter_fwd_exact|].
  split; [exact Hsync|]. split; [exact H|].
  exact (run_keeps_unplaced head_sample set_iter_fwd head_sample_lawful
           set_iter_fwd_exact _ _ _ "w" Hsync H).
Defined.

(** ** The two migration metrics of [main] *)

Lemma dict_set_map {A B K} `{EqDecision K} (f : A → B) (key : A → K)
  (key' : B → K) (x : A) (d : list A) :
  (∀ a, key' (f a) = key a) →
  dict_set key' (f x) (map f d) = map f (dict_set key x d).
Proof.
  intros Hkey. induction d as [|y d IH]; simpl; [done|].
  rewrite !Hkey. case_bool_decide; simpl; [done|]. by rewrite IH.
Qed.

Lemma dict_of_map {A B K} `{EqDecision K} (f : A → B) (key : A → K)
  (key' : B → K) (xs : list A) :
  (∀ a, key' (f a) = key a) →
  dict_of key' (map f xs) = map f (dict_of key xs).
Proof.
  intros Hkey. unfold dict_of.
  change (@nil B) with (map f []). generalize (@nil A).
  induction xs as [|x xs IH]; intros acc; simpl; [done|].
  by rewrite (dict_set_map f key key'), IH.
Qed.

Lemma get_or_None_assignment (vms : list VM.t) (vid : string) :
  get_or_None (map (fun vm => (VM.id vm, VM.pm_id vm)) vms) vid
  = match assignment vms vid with Some p => p | None => None end.
Proof.
  unfold get_or_None, assignment.
  induction vms as [|v l IH]; simpl; [done|].
  case_bool_decide; simpl; [done|exact IH].
Qed.

Lemma migrated_vms_le_moved (vms0 vms : list VM.t) (count : nat) :
  migrated_vms (map (fun vm => (VM.id vm, VM.pm_id vm)) vms0) vms count
  ≤ count + moved vms0 vms.
Proof.
  unfold moved. revert count.
  induction vms as [|vm vms IH]; intros count; simpl; [lia|].
  rewrite filter_cons, get_or_None_assignment.
  etrans; [apply IH|].
  destruct (decide (assignment vms0 (VM.id vm) ≠ Some (VM.pm_id vm)))
    as [Hne|Heq]; simpl.
  - destruct (_ && _); lia.
  - apply dec_stable in Heq. rewrite Heq.
    rewrite (bool_decide_false (VM.pm_id vm ≠ VM.pm_id vm)) by auto.
    rewrite andb_false_r. lia.
Qed.

Lemma aligned_assignment (a c : list VM.t) :
  NoDup (map VM.id a) → Forall2 same_demand a c →
  Forall2 (fun va vc => assignment a (VM.id vc) = Some (VM.pm_id va)) a c.
Proof.
  intros Hnd H. apply Forall2_same_length_lookup.
  split; [by eapply Forall2_length|]. intros i va vc Ha Hc.
  destruct (Forall2_lookup_l _ _ _ _ _ H Ha) as (vc' & Hc' & Hid & _).
  rewrite Hc in Hc'. inversion Hc'; subst vc'. rewrite Hid.
  apply assignment_elem; [done|by eapply list_elem_of_lookup_2].
Qed.

Lemma filter_length_triangle {A} (P Q R : A → Prop)
  `{!∀ x, Decision (P x)} `{!∀ x, Decision (Q x)} `{!∀ x, Decision (R x)}
  (b c : list A) :
  Forall2 (fun vb vc => P vc → Q vb ∨ R vc) b c →
  length (filter P c) ≤ length (filter Q b) + length (filter R c).
Proof.
  induction 1 as [|vb vc b c Hbc _ IH]; [done|].
  rewrite !filter_cons.
  destruct (decide (P vc)) as [HP|]; [|repeat case_decide; simpl; lia].
  destruct (Hbc HP); repeat case_decide; simpl; try lia; done.
Qed.

Lemma moved_triangle (a b c : list VM.t) :
  NoDup (map VM.id a) →
  Forall2 same_demand a b → Forall2 same_demand b c →
  moved a c ≤ moved a b + moved b c.
Proof.
  intros Hnd Hab Hbc. unfold moved.
  apply (filter_length_triangle
           (fun vm => assignment a (VM.id vm) ≠ Some (VM.pm_id vm))
           (fun vm => assignment a (VM.id vm) ≠ Some (VM.pm_id vm))
           (fun vm => assignment b (VM.id vm) ≠ Some (VM.pm_id vm))).
  pose proof (aligned_assignment a b Hnd Hab) as Hab'.
  pose proof (aligned_assignment a c Hnd (same_demand_trans _ _ _ Hab Hbc))
    as Hac'.
  assert (NoDup (map VM.id b)) as Hndb
    by by rewrite (same_demand_ids _ _ Hab).
  pose proof (aligned_assignment b c Hndb Hbc) as Hbc'.
  apply Forall2_same_length_lookup.
  split; [by eapply Forall2_length|]. intros i vb vc Hb Hc.
  destruct (Forall2_lookup_r _ _ _ _ _ Hab' Hb) as (va & Ha & Hvb).
  destruct (Forall2_lookup_l _ _ _ _ _ Hac' Ha) as (vc' & Hc' & Hvc).
  rewrite Hc in Hc'. inversion Hc'; subst vc'.
  destruct (Forall2_lookup_l _ _ _ _ _ Hbc' Hb) as (vc' & Hc'' & Hvbc).
  rewrite Hc in Hc''. inversion Hc''; subst vc'.
  rewrite Hvb, Hvc, Hvbc. intros Hne.
  destruct (decide (VM.pm_id va = VM.pm_id vb)) as [Heq|Hne'].
  - right. congruence.
  - left. congruence.
Qed.

Lemma moved_same (a : list VM.t) : NoDup (map VM.id a) → moved a a = 0.
Proof.
  intros Hnd. unfold moved.
  assert (∀ l, Forall (fun vm => assignment a (VM.id vm)
                                 = Some (VM.pm_id vm)) l →
               length (filter (fun vm => assignment a (VM.id vm)
                                         ≠ Some (VM.pm_id vm)) l) = 0)
    as Hl.
  { induction 1 as [|vm l Hvm _ IH]; [done|].
    rewrite filter_cons, decide_False; [exact IH|]. by intros Hne. }
  apply Hl, Forall_forall. intros vm Hvm. by apply assignment_elem.
Qed.

Section Metrics.
Context {Rng : Type}.
Variable rng_sample : Rng → list string → nat → list string * Rng.
Variable set_iter : list string → list string.

Local Abbreviation Solver := (GammaFFSolver Rng).

Lemma run_loop_moved (fuel : nat) (improved : bool) (s s' : Solver)
  (b : bool) (base : list VM.t) :
  NoDup (map VM.id base) → Forall2 same_demand base (_vms s) →
  run_loop rng_sample set_iter fuel improved s = Ok (b, s') →
  moved base (_vms s') + migration_count s
  ≤ moved base (_vms s) + migration_count s'.
Proof.
  intros Hnd. revert improved s.
  induction fuel as [|fuel IH]; intros improved s Hbase H; simpl in H.
  - inversion H; subst. lia.
  - apply bind_Ok_inv in H as ([success s1] & Eiter & H).
    pose proof (iteration_frame _ _ _ _ _ Eiter) as [_ Hd].
    apply iteration_cases in Eiter as (_ & _ & _ & Hcase).
    assert (moved base (_vms s1) + migration_count s
            ≤ moved base (_vms s) + migration_count s1) as Hstep.
    { destruct Hcase as [(_ & _ & -> & ->)|(_ & Hcommit)]; [lia|].
      destruct Hcommit as (?&?&?&?&?&?&_&_&_&_&_&->).
      pose proof (moved_triangle base (_vms s) (_vms s1) Hnd Hbase Hd). lia. }
    cbv beta iota in H. destruct success.
    + apply IH in H; [lia|by eapply same_demand_trans].
    + inversion H; subst. lia.
Qed.

(** X14. The two figures [main] prints are ordered: the number of VMs
    whose final PM differs from the one in the input is at most
    [migration_count], because a VM counts once in the former however
    often it moved and not at all when it moved back. *)
Theorem migrated_vms_le_migration_count (pms : list PM.t) (vms : list VM.t)
  (G : Z) (sample_ratio : Q) (max_iter : Z) (rng : Rng)
  (s s' : Solver) (b : bool) :
  init pms vms G sample_ratio max_iter rng = Ok s →
  run rng_sample set_iter s = Ok (b, s') →
  migrated_vms (initial_pm_of_vm vms) (_vms s') 0 ≤ migration_count s'.
Proof.
  intros Hinit Hrun.
  pose proof (init_migration_count _ _ _ _ _ _ _ Hinit) as Hzero.
  assert (_vms s = dict_of VM.id vms) as Hvms.
  { unfold init in Hinit. apply bind_Ok_inv in Hinit as (pms' & _ & Hinit).
    by inversion Hinit. }
  unfold initial_pm_of_vm.
  rewrite (dict_of_map (fun vm => (VM.id vm, VM.pm_id vm)) VM.id fst) by done.
  rewrite <- Hvms.
  etrans; [apply migrated_vms_le_moved|]. simpl.
  assert (NoDup (map VM.id (_vms s))) as Hnd.
  { rewrite Hvms. apply (dict_of_NoDup_keys VM.id). }
  pose proof (run_loop_moved _ _ _ _ _ (_vms s) Hnd
                (same_demand_list_refl _) Hrun) as H.
  rewrite (moved_same _ Hnd) in H. lia.
Qed.

End Metrics.

Lemma migrated_vms_le_migration_count_witness :
  init churn_pms churn_vms 1 (15 # 100) 5 tt = Ok churn_solver ∧
  run head_sample set_iter_fwd churn_solver = Ok (true, churn_final) ∧
  migrated_vms (initial_pm_of_vm churn_vms) (_vms churn_final) 0
  ≤ migration_count churn_final.
Proof.
  assert (init churn_pms churn_vms 1 (15 # 100) 5 tt = Ok churn_solver)
    as Hinit by (vm_compute; reflexivity).
  assert (run head_sample set_iter_fwd churn_solver = Ok (true, churn_final))
    as H by (vm_compute; reflexivity).
  split; [exact Hinit|]. split; [exact H|].
  exact (migrated_vms_le_migration_count head_sample set_iter_fwd
           _ _ _ _ _ _ _ _ _ Hinit H).
Defined.

(** ** The read-only views *)

Lemma filter_length_split {A} (P : A → Prop) `{!∀ x, Decision (P x)}
  (l : list A) :
  length (filter P l) + length (filter (fun x => ¬ P x) l) = length l.
Proof.
  induction l as [|x l IH]; [done|]. rewrite !filter_cons.
  destruct (decide (P x)); [rewrite decide_False by auto|
                            rewrite decide_True by auto]; simpl; lia.
Qed.

Lemma py_min_None {A} (key : A → nat) (l : list A) :
  py_min key l = None ↔ l = [].
Proof.
  destruct l as [|x l]; [done|]. simpl.
  destruct (py_min key l) as [m|]; [|done].
  by destruct (key m <? key x).
Qed.

(** X15. The views count every PM once: a PM is active or inactive,
    not both, and [count_active_pms] plus the number of inactive PMs is
    the number of PMs.  [count_active_pms] is [0] exactly when
    [_single_iteration] finds no PM to empty and returns [False] at
    once. *)
Theorem active_inactive_partition {Rng : Type}
  (rng_sample : Rng → list string → nat → list string * Rng)
  (set_iter : list string → list string) (s : GammaFFSolver Rng) :
  count_active_pms s + length (inactive_pms s) = length (_pms s) ∧
  (∀ pm, pm ∈ _pms s → (pm ∈ active_pms s ↔ pm ∉ inactive_pms s)) ∧
  (count_active_pms s = 0 ↔ select_target (_pms s) = None) ∧
  (count_active_pms s = 0 →
   _single_iteration rng_sample set_iter s = Ok (false, s)).
Proof.
  unfold count_active_pms, active_pms, inactive_pms.
  assert (length (filter (fun pm => PM.vms pm ≠ []) (_pms s)) = 0
          ↔ select_target (_pms s) = None) as Hnone.
  { unfold select_target. rewrite py_min_None. apply length_zero_iff_nil. }
  split; [|split; [|split; [done|]]].
  - rewrite <- (filter_length_split (fun pm => PM.vms pm ≠ []) (_pms s)).
    f_equal. clear Hnone. induction (_pms s) as [|pm l IH]; [done|].
    rewrite !filter_cons.
    destruct (decide (PM.vms pm = [])) as [He|Hne];
      destruct (decide (¬ PM.vms pm ≠ [])) as [He'|Hne']; simpl;
      [by rewrite IH| |by destruct He'|done].
    by destruct Hne'; intros ?.
  - intros pm Hpm. rewrite !list_elem_of_filter. split.
    + intros [Hne _] [He _]. done.
    + intros Hnot. split; [|done]. intros He. apply Hnot. by split.
  - intros H0. apply Hnone in H0. unfold _single_iteration. by rewrite H0.
Qed.

Lemma total_robust_cpu_loop_entries (all_vms : list VM.t) (G : Z)
  (pms : list PM.t) (acc d : list (Z * Q)) :
  NoDup (map fst acc ++ map PM.id pms) →
  total_robust_cpu_loop all_vms G pms acc = Ok d →
  ∃ entries,
    d = acc ++ entries ∧
    Forall2 (fun pm e =>
               e.1 = PM.id pm ∧
               ∃ residents,
                 rmapM (vm_get all_vms) (PM.vms pm) = Ok residents ∧
                 e.2 = robust_cpu_usage residents G) pms entries.
Proof.
  revert acc. induction pms as [|pm pms IH]; intros acc Hnd H; simpl in H.
  - inversion H; subst. exists []. by rewrite app_nil_r.
  - apply bind_Ok_inv in H as (residents & Hres & H).
    rewrite (dict_set_fresh fst) in H.
    + apply IH in H as (entries & -> & Hentries).
      * exists ((PM.id pm, robust_cpu_usage residents G) :: entries).
        rewrite <- app_assoc. split; [done|]. constructor; [|done].
        split; [done|]. by exists residents.
      * rewrite map_app. simpl. by rewrite <- app_assoc.
    + simpl. apply NoDup_app in Hnd as (_ & Hdisj & _).
      intros Hin. apply (Hdisj _ Hin). left.
Qed.

(** X16. With distinct PM identifiers, [total_robust_cpu_per_pm]
    returns one entry per PM, in the order of the PMs, holding the PM
    identifier and the robust CPU usage of the VMs listed on that PM. *)
Theorem total_robust_cpu_per_pm_entries {Rng : Type} (s : GammaFFSolver Rng)
  (d : list (Z * Q)) :
  NoDup (map PM.id (_pms s)) →
  total_robust_cpu_per_pm s = Ok d →
  Forall2 (fun pm e =>
             e.1 = PM.id pm ∧
             ∃ residents,
               rmapM (vm_get (_vms s)) (PM.vms pm) = Ok residents ∧
               e.2 = robust_cpu_usage residents (G s)) (_pms s) d.
Proof.
  unfold total_robust_cpu_per_pm. intros Hnd H.
  by apply total_robust_cpu_loop_entries in H as (entries & -> & Hentries).
Qed.

Lemma total_robust_cpu_per_pm_entries_witness :
  NoDup (map PM.id (_pms churn_final)) ∧
  total_robust_cpu_per_pm churn_final = Ok [(1%Z, 9%Q); (2%Z, 6%Q); (3%Z, 0%Q)] ∧
  Forall2 (fun pm e =>
             e.1 = PM.id pm ∧
             ∃ residents,
               rmapM (vm_get (_vms churn_final)) (PM.vms pm) = Ok residents ∧
               e.2 = robust_cpu_usage residents (G churn_final))
    (_pms churn_final) [(1%Z, 9%Q); (2%Z, 6%Q); (3%Z, 0%Q)].
Proof.
  assert (NoDup (map PM.id (_pms churn_final))) as Hnd.
  { apply (bool_decide_unpack (NoDup (map PM.id (_pms churn_final)))).
    vm_compute. exact I. }
  assert (total_robust_cpu_per_pm churn_final
          = Ok [(1%Z, 9%Q); (2%Z, 6%Q); (3%Z, 0%Q)]) as H
    by (vm_compute; reflexivity).
  split; [exact Hnd|]. split; [exact H|].
  exact (total_robust_cpu_per_pm_entries _ _ Hnd H).
Defined.

(** ** The constructor and its input *)

Lemma alter_first_map {A} (p : A → bool) (f g : A → A) (l : list A) :
  (∀ x, p (g x) = p x) → (∀ x, g (f x) = f (g x)) →
  alter_first p f (map g l) = map g (alter_first p f l).
Proof.
  intros Hp Hfg. induction l as [|x l IH]; simpl; [done|].
  rewrite Hp. destruct (p x); simpl; [by rewrite Hfg|by rewrite IH].
Qed.

Lemma sync_append_map (g : PM.t → PM.t) (vms : list VM.t) (pms : list PM.t) :
  (∀ pm, PM.id (g pm) = PM.id pm) →
  (∀ pm l, g (PM.set_vms l pm) = PM.set_vms l (g pm)) →
  (∀ pm, PM.vms (g pm) = PM.vms pm) →
  sync_append vms (map g pms)
  = match sync_append vms pms with
    | Ok pms' => Ok (map g pms')
    | Raise e => Raise e
    end.
Proof.
  intros Hid Hset Hvms. revert pms.
  induction vms as [|vm vms IH]; intros pms; simpl; [done|].
  destruct (VM.pm_id vm) as [h|]; [|apply IH].
  rewrite map_map. rewrite (map_ext (fun pm => PM.id (g pm)) PM.id) by done.
  case_bool_decide; [|done].
  rewrite <- IH. f_equal. unfold pm_alter. apply alter_first_map.
  - intros pm. by rewrite Hid.
  - intros pm. by rewrite Hset, Hvms.
Qed.

Lemma sync_ignores_lists (pms : list PM.t) (vms : list VM.t) :
  _sync_vm_pm_lists pms vms
  = _sync_vm_pm_lists
      (map (fun pm => PM.mk (PM.id pm) (PM.cpu_cap pm) (PM.mem_cap pm) [] true)
         pms) vms.
Proof.
  unfold _sync_vm_pm_lists. rewrite map_map. simpl.
  rewrite (map_ext
             (fun pm => PM.set_vms []
                (PM.mk (PM.id pm) (PM.cpu_cap pm) (PM.mem_cap pm) [] true))
             (fun pm => PM.set_active true (PM.set_vms [] pm))) by done.
  rewrite <- (map_map (PM.set_vms []) (PM.set_active true)).
  rewrite (sync_append_map (PM.set_active true)) by done.
  destruct (sync_append vms (map (PM.set_vms []) pms)) as [pms'|e]; simpl;
    [|done].
  f_equal. unfold refresh_active. rewrite map_map. by apply map_ext.
Qed.

(** X17. The constructor rebuilds the list of VMs and the [active] flag
    of every PM from the [pm_id] of the VMs: two inputs whose PMs differ
    only in [vms] and [active] give the same solver, or raise the same
    error. *)
Theorem init_ignores_pm_lists {Rng : Type} (pms pms' : list PM.t)
  (vms : list VM.t) (G : Z) (sample_ratio : Q) (max_iter : Z) (rng : Rng) :
  Forall2 same_host pms pms' →
  init pms vms G sample_ratio max_iter rng
  = init pms' vms G sample_ratio max_iter rng.
Proof.
  intros Hsame. unfold init.
  rewrite (sync_ignores_lists (dict_of PM.id pms)),
          (sync_ignores_lists (dict_of PM.id pms')).
  rewrite <- !(dict_of_map
                 (fun pm => PM.mk (PM.id pm) (PM.cpu_cap pm) (PM.mem_cap pm)
                              [] true) PM.id PM.id) by done.
  do 3 f_equal.
  induction Hsame as [|pm pm' l l' (Hid & Hcpu & Hmem) _ IH]; simpl; [done|].
  by rewrite IH, Hid, Hcpu, Hmem.
Qed.

Lemma init_ignores_pm_lists_witness :
  Forall2 same_host churn_pms
    (map (fun pm => PM.set_active false (PM.set_vms ["ghost"] pm)) churn_pms) ∧
  init churn_pms churn_vms 1 (1 # 2) 5 tt
  = init (map (fun pm => PM.set_active false (PM.set_vms ["ghost"] pm))
            churn_pms) churn_vms 1 (1 # 2) 5 tt.
Proof.
  assert (Forall2 same_host churn_pms
            (map (fun pm => PM.set_active false (PM.set_vms ["ghost"] pm))
               churn_pms)) as H.
  { induction churn_pms; constructor; done. }
  split; [exact H|].
  exact (init_ignores_pm_lists _ _ churn_vms 1 (1 # 2) 5 tt H).
Defined.

Lemma find_app_first {A} (p : A → bool) (l1 l2 : list A) :
  find p (l1 ++ l2)
  = match find p l1 with Some x => Some x | None => find p l2 end.
Proof.
  induction l1 as [|x l1 IH]; simpl; [done|]. by destruct (p x).
Qed.

Lemma find_dict_set {A K} `{EqDecision K} (key : A → K) (k : K) (x : A)
  (d : list A) :
  find (fun y => bool_decide (key y = k)) (dict_set key x d)
  = if bool_decide (key x = k) then Some x
    else find (fun y => bool_decide (key y = k)) d.
Proof.
  induction d as [|y d IH]; simpl.
  - by case_bool_decide.
  - destruct (decide (key y = key x)) as [Hyx|Hyx].
    + rewrite (bool_decide_eq_true_2 _ Hyx). simpl.
      destruct (decide (key x = k)) as [Hx|Hx].
      * by rewrite (bool_decide_eq_true_2 _ Hx).
      * rewrite (bool_decide_eq_false_2 _ Hx).
        rewrite bool_decide_eq_false_2; [done|congruence].
    + rewrite (bool_decide_eq_false_2 _ Hyx). simpl.
      destruct (decide (key y = k)) as [Hy|Hy].
      * rewrite (bool_decide_eq_true_2 _ Hy).
        rewrite bool_decide_eq_false_2; [done|congruence].
      * rewrite (bool_decide_eq_false_2 _ Hy). apply IH.
Qed.

Lemma find_dict_fold {A K} `{EqDecision K} (key : A → K) (k : K)
  (xs acc : list A) :
  find (fun y => bool_decide (key y = k))
       (fold_left (fun d x => dict_set key x d) xs acc)
  = match find (fun y => bool_decide (key y = k)) (reverse xs) with
    | Some x => Some x
    | None => find (fun y => bool_decide (key y = k)) acc
    end.
Proof.
  revert acc. induction xs as [|x xs IH]; intros acc; simpl; [done|].
  rewrite IH, reverse_cons, find_app_first, find_dict_set. simpl.
  destruct (find _ (reverse xs)); [done|]. by case_bool_decide.
Qed.

(** X18. When the input of the constructor has several VMs with one
    identifier, the solver keeps the last of them: a lookup in [_vms]
    gives the last input record with that identifier, and [KeyError]
    when the input has none. *)
Theorem init_keeps_last_duplicate {Rng : Type} (pms : list PM.t)
  (vms : list VM.t) (G : Z) (sample_ratio : Q) (max_iter : Z) (rng : Rng)
  (s : GammaFFSolver Rng) (vid : string) :
  init pms vms G sample_ratio max_iter rng = Ok s →
  NoDup (map VM.id (_vms s)) ∧
  vm_get (_vms s) vid
  = match find (fun vm => bool_decide (VM.id vm = vid)) (reverse vms) with
    | Some vm => Ok vm
    | None => Raise (KeyError_vm vid)
    end.
Proof.
  intros Hinit. unfold init in Hinit.
  apply bind_Ok_inv in Hinit as (pms' & _ & Hinit). inversion Hinit; subst.
  simpl. split; [apply (dict_of_NoDup_keys VM.id)|].
  unfold vm_get, dict_of. rewrite (find_dict_fold VM.id). simpl.
  by destruct (find _ (reverse vms)).
Qed.

Lemma init_keeps_last_duplicate_witness :
  ∃ s, init lone_pms (VM.mk "a" 1 1 1 None :: VM.mk "a" 2 0 3 (Some 1%Z) :: [])
         0 (1 # 2) 1 tt = Ok s ∧
       NoDup (map VM.id (_vms s)) ∧
       vm_get (_vms s) "a" = Ok (VM.mk "a" 2 0 3 (Some 1%Z)).
Proof.
  destruct (init lone_pms
              (VM.mk "a" 1 1 1 None :: VM.mk "a" 2 0 3 (Some 1%Z) :: [])
              0 (1 # 2) 1 tt) as [s|e] eqn:E; [|by vm_compute in E].
  exists s. split; [done|].
  exact (init_keeps_last_duplicate _ _ _ _ _ _ s "a" E).
Defined.

(** ** The sampling ratio *)




Section Ratio.
Context {Rng : Type}.
Variable rng_sample : Rng → list string → nat → list string * Rng.
Variable set_iter : list string → list string.


End Ratio.




(** ** From the loader to the solver *)

Lemma dict_set_elem {A K} `{EqDecision K} (key : A → K) (x y : A)
  (d : list A) :
  y ∈ dict_set key x d → y = x ∨ y ∈ d.
Proof.
  induction d as [|z d IH]; simpl.
  - rewrite list_elem_of_singleton. auto.
  - case_bool_decide; rewrite !elem_of_cons; [tauto|].
    intros [->|Hin]; [tauto|]. apply IH in Hin. tauto.
Qed.

Lemma dict_of_elem {A K} `{EqDecision K} (key : A → K) (y : A)
  (xs : list A) :
  y ∈ dict_of key xs → y ∈ xs.
Proof.
  unfold dict_of.
  assert (∀ acc, y ∈ fold_left (fun d x => dict_set key x d) xs acc →
                 y ∈ acc ∨ y ∈ xs) as H.
  { induction xs as [|x xs IH]; intros acc Hin; simpl in Hin; [by left|].
    apply IH in Hin as [Hin|Hin]; [|right; by right].
    apply dict_set_elem in Hin as [->|Hin]; [right; left|by left]. }
  intros Hin. apply H in Hin as [Hin|Hin]; [by apply elem_of_nil in Hin|done].
Qed.

Lemma load_loop_placed (percentile : list Q → Q → Q)
  (raw_data : list Raw.pm_entry) (pms pms' : list PM.t)
  (vms vms' : list VM.t) :
  Forall (fun vm => ∃ h, VM.pm_id vm = Some h ∧ h ∈ map PM.id pms) vms →
  load_loop percentile raw_data pms vms = (pms', vms') →
  Forall (fun vm => ∃ h, VM.pm_id vm = Some h ∧ h ∈ map PM.id pms') vms'.
Proof.
  revert pms vms.
  induction raw_data as [|e raw IH]; intros pms vms Hall H; simpl in H.
  - by inversion H; subst.
  - apply IH in H; [done|]. apply Forall_app. split.
    + eapply Forall_impl; [exact Hall|]. simpl. intros vm (h & Hh & Hin).
      exists h. split; [done|]. rewrite map_app. apply elem_of_app. by left.
    + apply Forall_forall. intros vm Hvm.
      apply list_elem_of_fmap in Hvm as (ve & -> & _).
      exists (Raw.pm_id e). split; [done|].
      rewrite map_app. apply elem_of_app. right. simpl. left.
Qed.

(** X21. Whatever the data, the constructor accepts what
    [load_huawei_percentile] returns: it raises no [ValueError], every
    VM of the solver is on a PM of the solver, and the budget is the
    one passed to the loader. *)
Theorem loaded_data_accepted {Rng : Type} (percentile : list Q → Q → Q)
  (raw_data : list Raw.pm_entry) (G0 : Z) (sample_ratio : Q) (max_iter : Z)
  (rng : Rng) :
  match load_huawei_percentile percentile raw_data G0 with
  | (pms, vms, G') =>
      ∃ s, init pms vms G' sample_ratio max_iter rng = Ok s ∧
           G s = G0 ∧
           Forall (fun vm => ∃ h, VM.pm_id vm = Some h ∧
                                  h ∈ map PM.id (_pms s)) (_vms s)
  end.
Proof.
  unfold load_huawei_percentile.
  destruct (load_loop percentile raw_data [] []) as [pms vms] eqn:Eload.
  apply load_loop_placed in Eload; [|constructor].
  assert (Forall (fun vm => ∃ h, VM.pm_id vm = Some h ∧
                                 h ∈ map PM.id (map (PM.set_vms [])
                                                  (dict_of PM.id pms)))
            (dict_of VM.id vms)) as Hall.
  { apply Forall_forall. intros vm Hvm. apply dict_of_elem in Hvm.
    rewrite Forall_forall in Eload.
    destruct (Eload vm Hvm) as (h & Hh & Hin). exists h. split; [done|].
    rewrite map_map. simpl. by apply (dict_of_keys PM.id). }
  unfold init, _sync_vm_pm_lists.
  destruct (sync_append (dict_of VM.id vms)
              (map (PM.set_vms []) (dict_of PM.id pms))) as [pms1|e] eqn:Esync.
  - simpl. eexists. split; [done|]. simpl. split; [done|].
    apply sync_append_Ok in Esync as [Hids _].
    rewrite refresh_active_ids, Hids. exact Hall.
  - apply sync_append_Raise in Esync as (vm & h & Hvm & Hh & Hnot & _).
    rewrite Forall_forall in Hall.
    destruct (Hall vm Hvm) as (h' & Hh' & Hin). congruence.
Qed.

Lemma total_robust_cpu_loop_returns (all_vms : list VM.t) (G : Z)
  (pms : list PM.t) (acc : list (Z * Q)) :
  Forall (known all_vms) pms →
  ∃ d, total_robust_cpu_loop all_vms G pms acc = Ok d.
Proof.
  revert acc. induction pms as [|pm pms IH]; intros acc Hknown; simpl.
  - by eexists.
  - apply Forall_cons in Hknown as [Hpm Hknown].
    pose proof (residents_raise all_vms (PM.vms pm)) as Hres.
    destruct (rmapM (vm_get all_vms) (PM.vms pm)) as [residents|e]; simpl.
    + by apply IH.
    + destruct Hres as (vid & Hin & Hnot & _).
      unfold known in Hpm. rewrite Forall_forall in Hpm. by apply Hpm in Hin.
Qed.

Section Reports.
Context {Rng : Type}.
Variable rng_sample : Rng → list string → nat → list string * Rng.
Variable set_iter : list string → list string.
Hypothesis sample_lawful : lawful_sample rng_sample.
Hypothesis set_iter_lawful : lawful_set_iter set_iter.

(** X22. After the constructor and [run], with a [sample_ratio] of at
    most [1], the two reports raise no [KeyError]: [check_feasibility]
    returns its pair and [total_robust_cpu_per_pm] returns a dictionary
    whose keys are the PM identifiers, in the order of the PMs. *)
Theorem reports_never_raise (pms : list PM.t) (vms : list VM.t) (G0 : Z)
  (sample_ratio : Q) (max_iter : Z) (rng : Rng) (s s' : GammaFFSolver Rng)
  (b : bool) :
  (sample_ratio <= 1)%Q →
  init pms vms G0 sample_ratio max_iter rng = Ok s →
  run rng_sample set_iter s = Ok (b, s') →
  ∃ ok errors d,
    check_feasibility s' = Ok (ok, errors) ∧
    total_robust_cpu_per_pm s' = Ok d ∧
    map fst d = map PM.id (_pms s').
Proof.
  intros Hratio Hinit Hrun.
  pose proof (init_well_formed _ _ _ _ _ _ _ Hratio Hinit) as Hwf.
  destruct (run_returns rng_sample set_iter sample_lawful set_iter_lawful
              s Hwf) as (b' & s'' & Hrun' & [Hknown _]).
  rewrite Hrun in Hrun'. inversion Hrun'; subst b' s''. clear Hrun'.
  assert (NoDup (map PM.id (_pms s'))) as Hnd.
  { apply run_loop_frame in Hrun as (_ & _ & _ & Hhost & _).
    rewrite (same_host_ids _ _ Hhost).
    by destruct (init_sync _ _ _ _ _ _ _ Hinit) as (Hnd & _). }
  destruct (total_robust_cpu_loop_returns (_vms s') (G s') (_pms s')
              [] Hknown) as (d & Hd).
  unfold check_feasibility.
  pose proof (check_all_raise (_vms s') (G s') (_pms s')) as Hcheck.
  destruct (rmapM (check_pm (_vms s') (G s')) (_pms s'))
    as [per_pm|e]; simpl.
  - eexists _, _, d. split; [done|]. split; [done|].
    apply total_robust_cpu_loop_entries in Hd as (entries & -> & Hentries);
      [|done].
    simpl. clear -Hentries.
    induction Hentries as [|pm e l l' [He _] _ IH]; simpl; [done|].
    by rewrite He, IH.
  - destruct Hcheck as (pm & vid & Hpm & Hvid & Hnot & _).
    rewrite Forall_forall in Hknown. specialize (Hknown pm Hpm).
    unfold known in Hknown. rewrite Forall_forall in Hknown.
    by apply Hknown in Hvid.
Qed.

End Reports.

Lemma reports_never_raise_witness :
  ∃ s b s' ok errors d,
    init churn_pms churn_vms 1 (15 # 100) 5 tt = Ok s ∧
    run head_sample set_iter_fwd s = Ok (b, s') ∧
    check_feasibility s' = Ok (ok, errors) ∧
    total_robust_cpu_per_pm s' = Ok d ∧
    map fst d = map PM.id (_pms s').
Proof.
  destruct (init churn_pms churn_vms 1 (15 # 100) 5 tt) as [s|e] eqn:E;
    [|by vm_compute in E].
  destruct (run head_sample set_iter_fwd s) as [[b s']|e] eqn:Erun.
  - assert (15 # 100 <= 1)%Q as Hratio by (vm_compute; discriminate).
    destruct (reports_never_raise head_sample set_iter_fwd
                head_sample_lawful set_iter_fwd_lawful
                _ _ _ _ _ _ s s' b Hratio E Erun)
      as (ok & errors & d & H).
    by exists s, b, s', ok, errors, d.
  - inversion E; subst s. by vm_compute in Erun.
Defined.

(** ** The size of the queue *)




